(** * AI-Subtitles: the acquisition-and-transcription pipeline

    A shallow embedding of the TypeScript sources ([src/main.ts] and its two
    sibling variants, [src/errors.ts], [src/model.ts]) together with the
    properties the specification states about them.

    The repository holds three variants of [main.ts]: continuous recognition
    with the speech SDK ([Main]), single-shot recognition with the same SDK
    ([MainOnce]) and the submit-and-poll client of the REST service
    ([MainAssemblyAI]).  They share the file system service, the downloader
    and the main program.

    Layout:
    - [RegExp]: JavaScript strings as UTF-16 code units, regular expressions
      and a derivative matcher for [RegExp.prototype.test] on anchored
      patterns;
    - [JS], [Path]: the values, numbers and path functions the program uses;
    - [Errors], [Model], [Effect]: [errors.ts], [model.ts] and the effect
      combinators;
    - [FileSystemService], [YouTubeDownloader], [Pipeline] and the three
      variants;
    - [Spec]: the validation grammar in the words of the specification;
    - [Scripted]: scripted collaborators for the examples;
    - the properties. *)

From stdpp Require Import base numbers list strings gmap.
From Stdlib Require Import Ascii QArith Qcanon DecimalString DecimalZ.
From Equations Require Import Equations.

Set Default Proof Using "Type".
Local Open Scope Z_scope.

(* ===================================================================== *)
(** * Regular expressions over UTF-16 code units *)
(* ===================================================================== *)

Module RegExp.

(** A JavaScript string is a sequence of 16-bit code units; the patterns of
    the program carry no [u] flag, so they are matched unit by unit. *)
Definition char := N.
Definition jsstring := list char.

(** The code units of a literal written in ASCII. *)
Fixpoint code_units (s : string) : jsstring :=
  match s with
  | EmptyString => []
  | String a rest => N_of_ascii a :: code_units rest
  end.

Inductive regex : Type :=
| Void
| Eps
| Cls (p : char → bool)
| Cat (r1 r2 : regex)
| Alt (r1 r2 : regex)
| Star (r : regex).

Definition Lit (c : char) : regex := Cls (N.eqb c).

Fixpoint Str (s : jsstring) : regex :=
  match s with
  | [] => Eps
  | c :: rest => Cat (Lit c) (Str rest)
  end.

(** [r?], [r+] and [r{n}]; the lazy forms [r*?] accept the same strings. *)
Definition Opt (r : regex) : regex := Alt r Eps.
Definition Plus (r : regex) : regex := Cat r (Star r).
Fixpoint Rep (n : nat) (r : regex) : regex :=
  match n with
  | O => Eps
  | S n' => Cat r (Rep n' r)
  end.

(** The strings a pattern denotes. *)
Inductive Matches : regex → jsstring → Prop :=
| MEps : Matches Eps []
| MCls p c : p c = true → Matches (Cls p) [c]
| MCat r1 r2 s1 s2 :
    Matches r1 s1 → Matches r2 s2 → Matches (Cat r1 r2) (s1 ++ s2)
| MAltL r1 r2 s : Matches r1 s → Matches (Alt r1 r2) s
| MAltR r1 r2 s : Matches r2 s → Matches (Alt r1 r2) s
| MStarNil r : Matches (Star r) []
| MStarApp r s1 s2 :
    Matches r s1 → Matches (Star r) s2 → Matches (Star r) (s1 ++ s2).

(** ** The matcher *)

Fixpoint nullable (r : regex) : bool :=
  match r with
  | Void => false
  | Eps => true
  | Cls _ => false
  | Cat r1 r2 => nullable r1 && nullable r2
  | Alt r1 r2 => nullable r1 || nullable r2
  | Star _ => true
  end.

(** Smart constructors keep the residual patterns small. *)
Definition cat (r1 r2 : regex) : regex :=
  match r1, r2 with
  | Void, _ => Void
  | _, Void => Void
  | Eps, _ => r2
  | _, _ => Cat r1 r2
  end.

Definition alt (r1 r2 : regex) : regex :=
  match r1, r2 with
  | Void, _ => r2
  | _, Void => r1
  | _, _ => Alt r1 r2
  end.

Fixpoint deriv (c : char) (r : regex) : regex :=
  match r with
  | Void => Void
  | Eps => Void
  | Cls p => if p c then Eps else Void
  | Cat r1 r2 =>
      if nullable r1
      then alt (cat (deriv c r1) r2) (deriv c r2)
      else cat (deriv c r1) r2
  | Alt r1 r2 => alt (deriv c r1) (deriv c r2)
  | Star r1 => cat (deriv c r1) (Star r1)
  end.

Fixpoint matches (r : regex) (s : jsstring) : bool :=
  match s with
  | [] => nullable r
  | c :: rest => matches (deriv c r) rest
  end.

(** [re.test(s)] for a pattern [/^r$/] written without flags: [^] and [$]
    pin the match to the two ends of the input, so the test succeeds exactly
    when the whole input is matched by [r]. *)
Definition test (r : regex) (s : jsstring) : bool := matches r s.

(** ** Character classes of the patterns *)

Definition in_range (lo hi c : N) : bool := (lo <=? c)%N && (c <=? hi)%N.

(** [[a-zA-Z0-9_-]] *)
Definition id_char (c : char) : bool :=
  in_range 97 122 c || in_range 65 90 c || in_range 48 57 c
  || (c =? 95)%N || (c =? 45)%N.

(** LineTerminator: LF, CR, U+2028, U+2029. *)
Definition line_terminator (c : char) : bool :=
  (c =? 10)%N || (c =? 13)%N || (c =? 8232)%N || (c =? 8233)%N.

(** [.] without the [s] flag. *)
Definition dot (c : char) : bool := negb (line_terminator c).

(** [\s]: WhiteSpace and LineTerminator. *)
Definition white_space (c : char) : bool :=
  in_range 9 13 c || (c =? 32)%N || (c =? 160)%N || (c =? 5760)%N
  || in_range 8192 8202 c || (c =? 8232)%N || (c =? 8233)%N
  || (c =? 8239)%N || (c =? 8287)%N || (c =? 12288)%N || (c =? 65279)%N.

(** [\S] *)
Definition non_space (c : char) : bool := negb (white_space c).

(** [[^\/\n\s]] *)
Definition not_slash_space (c : char) : bool :=
  negb ((c =? 47)%N || (c =? 10)%N || white_space c).

(** [[?&]] *)
Definition query_sep (c : char) : bool := (c =? 63)%N || (c =? 38)%N.

End RegExp.

(* ===================================================================== *)
(** * JavaScript values *)
(* ===================================================================== *)

Module JS.
Import RegExp.

(** Numbers.  A finite number is kept as the exact rational it denotes;
    rounding to the nearest double, the infinities and the negative zero are
    left out.  [NaN] is kept: it is what [Number] makes of a text that is no
    numeral, and every comparison with it is false. *)
Inductive number : Type :=
| NaN
| Fin (q : Qc).

Definition of_Z (z : Z) : number := Fin (Q2Qc (inject_Z z)).
Definition ratio (n : Z) (d : positive) : number := Fin (Q2Qc (n # d)).

Definition num_add (a b : number) : number :=
  match a, b with
  | Fin x, Fin y => Fin (x + y)
  | _, _ => NaN
  end.

Definition num_div (a b : number) : number :=
  match a, b with
  | Fin x, Fin y => if decide (y = 0%Qc) then NaN else Fin (x / y)
  | _, _ => NaN
  end.

(** [a <= b] on numbers *)
Definition num_le (a b : number) : Prop :=
  match a, b with
  | Fin x, Fin y => (x <= y)%Qc
  | _, _ => False
  end.

#[global] Instance num_le_dec : RelDecision num_le.
Proof. intros [| x] [| y]; simpl; apply _. Defined.

#[global] Instance number_eq_dec : EqDecision number.
Proof. solve_decision. Defined.

(** The values that reach the confidence computation. *)
Inductive jsval : Type :=
| VUndefined
| VNull
| VBool (b : bool)
| VNumber (n : number)
| VString (s : jsstring).

(** ToBoolean *)
Definition truthy (v : jsval) : bool :=
  match v with
  | VUndefined | VNull => false
  | VBool b => b
  | VNumber NaN => false
  | VNumber (Fin q) => bool_decide (q ≠ 0%Qc)
  | VString s => bool_decide (s ≠ [])
  end.

(** [a || b] *)
Definition or_else (a b : jsval) : jsval := if truthy a then a else b.

(** [s || <empty text>] on a string *)
Definition or_empty (s : jsstring) : jsstring :=
  if truthy (VString s) then s else [].

(** ** Numerals *)

Definition digit (c : char) : option Z :=
  if in_range 48 57 c then Some (Z.of_N c - 48) else None.

(** Reads the longest run of decimal digits: its value, its length and
    what follows it. *)
Fixpoint digits (s : jsstring) (acc : Z) (len : nat) : Z * nat * jsstring :=
  match s with
  | [] => (acc, len, [])
  | c :: rest =>
      match digit c with
      | Some d => digits rest (10 * acc + d) (S len)
      | None => (acc, len, s)
      end
  end.

Definition sign (s : jsstring) : Z * jsstring :=
  match s with
  | 43%N :: rest => (1, rest)
  | 45%N :: rest => (-1, rest)
  | _ => (1, s)
  end.

Definition pow10 (e : Z) : Qc :=
  if decide (0 ≤ e) then Q2Qc (inject_Z (10 ^ e))
  else Q2Qc (1 # Z.to_pos (10 ^ (- e))).

(** StrDecimalLiteral: an optional sign, digits with an optional fraction
    (at least one digit in all) and an optional exponent. *)
Definition decimal_literal (s : jsstring) : option Qc :=
  let '(sg, s1) := sign s in
  let '(ip, ni, s2) := digits s1 0 0 in
  let '(fp, nf, s3) :=
    match s2 with
    | 46%N :: rest => digits rest 0 0
    | _ => (0, 0%nat, s2)
    end in
  if decide (ni + nf = 0)%nat then None else
  let mantissa :=
    (Q2Qc (inject_Z sg) *
     (Q2Qc (inject_Z ip) + Q2Qc (inject_Z fp) * pow10 (- Z.of_nat nf)))%Qc in
  match s3 with
  | [] => Some mantissa
  | c :: rest =>
      if decide (c = 101%N ∨ c = 69%N) then
        let '(esg, s4) := sign rest in
        let '(ex, ne, s5) := digits s4 0 0 in
        if decide (ne = 0%nat) then None else
        match s5 with
        | [] => Some (mantissa * pow10 (esg * ex))%Qc
        | _ => None
        end
      else None
  end.

Fixpoint trim_start (s : jsstring) : jsstring :=
  match s with
  | [] => []
  | c :: rest => if white_space c then trim_start rest else s
  end.
Definition trim (s : jsstring) : jsstring :=
  reverse (trim_start (reverse (trim_start s))).

(** StringToNumber: white space is trimmed, the empty text is [0], a decimal
    literal is its value; the other numerals of the language ([Infinity],
    [0x..], [0o..], [0b..]) have no counterpart here and read as [NaN]. *)
Definition string_to_number (s : jsstring) : number :=
  match trim s with
  | [] => of_Z 0
  | t => match decimal_literal t with
         | Some q => Fin q
         | None => NaN
         end
  end.

(** [Number(v)] *)
Definition Number (v : jsval) : number :=
  match v with
  | VUndefined => NaN
  | VNull => of_Z 0
  | VBool b => of_Z (if b then 1 else 0)
  | VNumber n => n
  | VString s => string_to_number s
  end.

(** [`${n}`] for an integer [n] *)
Definition Z_to_string (n : Z) : jsstring :=
  code_units (DecimalString.NilZero.string_of_int (Z.to_int n)).

(** [`${code}`] for [code : number | null] *)
Definition code_to_string (code : option Z) : jsstring :=
  match code with
  | Some n => Z_to_string n
  | None => code_units "null"
  end.

(** [`${s}`] for [s : string | undefined] *)
Definition opt_to_string (s : option jsstring) : jsstring :=
  default (code_units "undefined") s.

End JS.

(* ===================================================================== *)
(** * [node:path] (POSIX) *)
(* ===================================================================== *)

Module Path.
Import RegExp.

Definition slash : char := 47%N.
Definition dot_seg : jsstring := code_units ".".
Definition dotdot_seg : jsstring := code_units "..".

(** The segments between the separators of a path. *)
Fixpoint split (path : jsstring) : list jsstring :=
  match path with
  | [] => [[]]
  | c :: rest =>
      if decide (c = slash) then [] :: split rest
      else match split rest with
           | seg :: segs => (c :: seg) :: segs
           | [] => [[c]]
           end
  end.

Fixpoint intercalate (segs : list jsstring) : jsstring :=
  match segs with
  | [] => []
  | [seg] => seg
  | seg :: rest => seg ++ slash :: intercalate rest
  end.

(** One segment of [normalizeString]; the segments kept so far are held
    last-first. *)
Definition push_segment (allowAboveRoot : bool)
    (kept : list jsstring) (seg : jsstring) : list jsstring :=
  if decide (seg = [] ∨ seg = dot_seg) then kept
  else if decide (seg = dotdot_seg) then
    match kept with
    | top :: below =>
        if decide (top = dotdot_seg)
        then (if allowAboveRoot then seg :: kept else kept)
        else below
    | [] => if allowAboveRoot then [seg] else []
    end
  else seg :: kept.

Definition normalizeString (path : jsstring) (allowAboveRoot : bool) : jsstring :=
  intercalate (reverse (foldl (push_segment allowAboveRoot) [] (split path))).

Definition normalize (path : jsstring) : jsstring :=
  match path with
  | [] => dot_seg
  | _ =>
      let isAbsolute := bool_decide (head path = Some slash) in
      let trailingSeparator := bool_decide (last path = Some slash) in
      let res := normalizeString path (negb isAbsolute) in
      match res with
      | [] =>
          if isAbsolute then [slash]
          else if trailingSeparator then dot_seg ++ [slash] else dot_seg
      | _ =>
          let res' := if trailingSeparator then res ++ [slash] else res in
          if isAbsolute then slash :: res' else res'
      end
  end.

(** A single segment that names an entry: not empty, free of separators,
    and neither [.] nor [..]. *)
Definition file_name (name : jsstring) : Prop :=
  name ≠ [] ∧ (slash ∉ name) ∧ name ≠ dot_seg ∧ name ≠ dotdot_seg.

(** [Path.join(...args)]: the non-empty arguments are joined by the
    separator and the result is normalised. *)
Definition join (args : list jsstring) : jsstring :=
  match filter (λ a, a ≠ []) args with
  | [] => dot_seg
  | parts => normalize (intercalate parts)
  end.

End Path.

(* ===================================================================== *)
(** * [errors.ts] *)
(* ===================================================================== *)

Module Errors.
Import RegExp.

(** What a rejection or a [throw] carries ([unknown] in the source), with
    the three tagged errors of the program among them. *)
Inductive unknown : Type :=
| JsError (message : jsstring)
| SystemError (code : jsstring)
| Payload (detail : jsstring)
| Tagged (e : TaggedError)
with TaggedError : Type :=
| InvalidUrlError (url : jsstring)
| YoutubeDownloadError (error : unknown)
| TranscriptionError (error : unknown).

Definition _tag (e : TaggedError) : string :=
  match e with
  | InvalidUrlError _ => "InvalidUrlError"
  | YoutubeDownloadError _ => "YoutubeDownloadError"
  | TranscriptionError _ => "TranscriptionError"
  end.

(** [error instanceof Error ? error : new Error(String(error))]: every
    value above is an [Error] but the plain event payload. *)
Definition as_Error (error : unknown) : unknown :=
  match error with
  | Payload _ => JsError (code_units "[object Object]")
  | _ => error
  end.

End Errors.

(* ===================================================================== *)
(** * [model.ts] *)
(* ===================================================================== *)

Module Model.
Import RegExp JS.

Record SubtitleToken : Type := {
  id : nat;
  value : jsstring;
  startTimeMs : number;
  endTimeMs : number;
  score : number;
}.

(** The run-time shape of what the transcribers resolve with: the casts of
    the source ([as unknown as SubtitleResult[]], [as const]) do not exist at
    run time, the nesting of the arrays does. *)
#[warnings="-register-all"]
Inductive json : Type :=
| JToken (t : SubtitleToken)
| JArray (items : list json).

Definition token_array (tokens : list SubtitleToken) : json :=
  JArray (JToken <$> tokens).

Definition as_token (v : json) : option SubtitleToken :=
  match v with
  | JToken t => Some t
  | JArray _ => None
  end.

(** Reads a value as a [SubtitleResult]: an array whose items are tokens. *)
Definition as_SubtitleResult (v : json) : option (list SubtitleToken) :=
  match v with
  | JToken _ => None
  | JArray items => mapM as_token items
  end.

(** The invariants the data model states for a token. *)
Definition ordered_times (t : SubtitleToken) : Prop :=
  num_le (startTimeMs t) (endTimeMs t).
Definition score_in_unit_interval (t : SubtitleToken) : Prop :=
  num_le (of_Z 0) (score t) ∧ num_le (score t) (of_Z 1).
Definition token_sound (t : SubtitleToken) : Prop :=
  ordered_times t ∧ score_in_unit_interval t.

End Model.

(* ===================================================================== *)
(** * The fragment of [effect] the program uses *)
(* ===================================================================== *)

Module Effect.
Import Errors.

Inductive Promise (A : Type) : Type :=
| Pending
| Resolved (a : A)
| Rejected (reason : unknown).
Arguments Pending {A}.
Arguments Resolved {A} a.
Arguments Rejected {A} reason.

(** A promise settles once: later calls of [resolve] or [reject] are
    without effect. *)
Definition settle {A} (p next : Promise A) : Promise A :=
  match p with
  | Pending => next
  | _ => p
  end.

Definition is_pending {A} (p : Promise A) : bool :=
  match p with
  | Pending => true
  | _ => false
  end.

(** How running an effect ends.  [Interrupted] is a run whose fiber was
    interrupted while the effect was under way: it has neither a value nor a
    failure of the error channel.  [Suspended] is an effect that waits on a
    promise nobody settles. *)
Inductive Exit (E A : Type) : Type :=
| Success (a : A)
| Failure (e : E)
| Interrupted
| Suspended.
Arguments Success {E A} a.
Arguments Failure {E A} e.
Arguments Interrupted {E A}.
Arguments Suspended {E A}.

(** [Effect.succeed], [Effect.fail] *)
Definition succeed {E A} (a : A) : Exit E A := Success a.
Definition fail {E A} (e : E) : Exit E A := Failure e.

(** The [AbortSignal] that [Effect.tryPromise] hands to [try] fires when the
    fiber running the effect is interrupted, and only then; once the promise
    has settled the effect is over and its signal fires no more.  For a
    promise driven by [events], [signal_fired] tells whether the signal fired
    while the promise was pending: [fires ev] says that [ev] is the signal
    firing, [pending st] that the promise is pending in the state [st], and
    [step] is what the listeners do. *)
Section signal.
Context {Ev St : Type}.
Variable fires : Ev → bool.
Variable pending : St → bool.
Variable step : St → Ev → St.

Fixpoint signal_fired (st : St) (events : list Ev) : bool :=
  match events with
  | [] => false
  | ev :: rest => pending st && (fires ev || signal_fired (step st ev) rest)
  end.

End signal.

(** [Effect.tryPromise({ try, catch })].  [interrupted] tells whether the
    signal handed to [try] fired while the promise was pending.  The run then
    ends interrupted, whatever the listeners on the signal do to the promise:
    a rejection they raise never reaches [catch]. *)
Definition tryPromise {E A} (interrupted : bool) (try : Promise A)
    (catch : unknown → E) : Exit E A :=
  if interrupted then Interrupted
  else match try with
       | Resolved a => Success a
       | Rejected reason => Failure (catch reason)
       | Pending => Suspended
       end.

(** [Effect.catchAll]: it recovers from failures, not from interruption. *)
Definition catchAll {E E' A} (f : E → Exit E' A) (eff : Exit E A) : Exit E' A :=
  match eff with
  | Success a => Success a
  | Failure e => f e
  | Interrupted => Interrupted
  | Suspended => Suspended
  end.

(** [Effect.map], [Effect.flatMap] *)
Definition map {E A B} (f : A → B) (eff : Exit E A) : Exit E B :=
  match eff with
  | Success a => Success (f a)
  | Failure e => Failure e
  | Interrupted => Interrupted
  | Suspended => Suspended
  end.

Definition flatMap {E A B} (f : A → Exit E B) (eff : Exit E A) : Exit E B :=
  match eff with
  | Success a => f a
  | Failure e => Failure e
  | Interrupted => Interrupted
  | Suspended => Suspended
  end.

End Effect.

(* ===================================================================== *)
(** * [FileSystemService] *)
(* ===================================================================== *)

Module FileSystemService.
Import RegExp JS Errors Effect.

(** What a call of [makeTempFile] reads from its surroundings: the outcome
    of [FS.realpath(OS.tmpdir())] and the reading of [Date.now()].  The two
    effects of this service take no signal, and the program runs them as the
    acquire and the release of [Effect.acquireRelease], which are not
    interruptible. *)
Record Sys : Type := {
  realpath_tmpdir : unknown + jsstring;
  now : Z;
}.

(** [`fluent-ai-subtitles-${Date.now()}.${extension}`] *)
Definition temp_name (now : Z) (extension : jsstring) : jsstring :=
  code_units "fluent-ai-subtitles-" ++ Z_to_string now
    ++ code_units "." ++ extension.

Definition makeTempFile (sys : Sys) (extension : jsstring)
    : Exit TaggedError jsstring :=
  tryPromise false
    (match realpath_tmpdir sys with
     | inr dir => Resolved (Path.join [dir; temp_name (now sys) extension])
     | inl error => Rejected error
     end)
    (λ error, YoutubeDownloadError error).

(** The files on disk, and the paths whose removal the system refuses
    together with the code it refuses with ([EPERM], [EBUSY], [EIO], ...). *)
Record Disk : Type := {
  files : gset jsstring;
  faults : gmap jsstring jsstring;
}.

(** [FS.unlink(path)] *)
Definition unlink (disk : Disk) (path : jsstring) : Promise unit * Disk :=
  match faults disk !! path with
  | Some code => (Rejected (SystemError code), disk)
  | None =>
      if decide (path ∈ files disk)
      then (Resolved (),
            {| files := files disk ∖ {[path]}; faults := faults disk |})
      else (Rejected (SystemError (code_units "ENOENT")), disk)
  end.

(** The error channel is empty after [catchAll]: the type of an effect that
    cannot fail. *)
Definition cleanupFile (disk : Disk) (path : jsstring)
    : Exit Empty_set unit * Disk :=
  let '(deleted, disk') := unlink disk path in
  (catchAll (λ _ : unit, succeed ()) (tryPromise false deleted (λ _, ())), disk').

End FileSystemService.

(* ===================================================================== *)
(** * [YouTubeDownloader] *)
(* ===================================================================== *)

Module YouTubeDownloader.
Import RegExp JS Errors Effect FileSystemService.

(** What [ytDlpWrap.exec] handed back: an event emitter
    ([typeof proc.on === "function"]), a thenable, or neither. *)
Inductive ProcKind : Type :=
| ChildProcess
| Thenable
| Other.

(** What happens while the promise of [getAudio] is alive, in order.
    [Abort] is the signal firing: the fiber has been interrupted. *)
Inductive Event : Type :=
| OnError (e : unknown)
| OnClose (code : option Z)
| Fulfilled
| RejectedWith (e : unknown)
| Abort.

Definition is_abort (ev : Event) : bool :=
  match ev with
  | Abort => true
  | _ => false
  end.

Record Run : Type := {
  proc : ProcKind;
  timeline : list Event;
}.

Definition exec_args (url file : jsstring) : list jsstring :=
  [url; code_units "-x"; code_units "--audio-format"; code_units "wav";
   code_units "-o"; file].

Definition exit_error (code : option Z) : unknown :=
  Tagged (YoutubeDownloadError
    (JsError (code_units "yt-dlp exited with code " ++ code_to_string code))).

Definition aborted_error : unknown :=
  Tagged (YoutubeDownloadError (JsError (code_units "aborted"))).

(** The listeners the executor registers, by the kind of [proc]. *)
Definition on_event (kind : ProcKind) (ev : Event) : Promise unit :=
  match ev, kind with
  | OnError e, ChildProcess => Rejected e
  | OnClose code, ChildProcess =>
      if decide (code = Some 0) then Resolved () else Rejected (exit_error code)
  | Fulfilled, Thenable => Resolved ()
  | RejectedWith e, Thenable => Rejected e
  | Abort, _ => Rejected aborted_error
  | _, _ => Pending
  end.

Definition executor (run : Run) : Promise unit :=
  foldl (λ p ev, settle p (on_event (proc run) ev))
    (match proc run with
     | Other => Resolved ()
     | _ => Pending
     end)
    (timeline run).

(** The signal fired before the promise had settled. *)
Definition interrupted (run : Run) : bool :=
  signal_fired is_abort is_pending (λ p ev, settle p (on_event (proc run) ev))
    (match proc run with
     | Other => Resolved ()
     | _ => Pending
     end)
    (timeline run).

Record Acquired : Type := {
  outcome : Exit TaggedError jsstring;
  (** the finalizers [acquireRelease] left in the scope *)
  to_release : list jsstring;
}.

Definition getAudio (sys : Sys) (exec : list jsstring → Run) (url : jsstring)
    : Acquired :=
  let acquired := makeTempFile sys (code_units "wav") in
  {| outcome :=
       flatMap
         (λ file,
            map (λ _ : unit, file)
              (tryPromise (interrupted (exec (exec_args url file)))
                 (executor (exec (exec_args url file)))
                 (λ error, YoutubeDownloadError error)))
         acquired;
     to_release :=
       match acquired with
       | Success file => [file]
       | _ => []
       end |}.

End YouTubeDownloader.

(* ===================================================================== *)
(** * The speech SDK, as far as the program reads its results *)
(* ===================================================================== *)

Module SpeechSDK.
Import RegExp JS.

Inductive ResultReason : Type :=
| NoMatch
| Canceled
| RecognizingSpeech
| RecognizedSpeech
| OtherReason (code : Z).

Definition reason_code (r : ResultReason) : Z :=
  match r with
  | NoMatch => 0
  | Canceled => 1
  | RecognizingSpeech => 2
  | RecognizedSpeech => 3
  | OtherReason code => code
  end.

#[global] Instance ResultReason_eq_dec : EqDecision ResultReason.
Proof. solve_decision. Defined.

(** [e.result]: [properties] may be missing, [getProperty] answers with a
    text or [undefined], and [confidence] is whatever the object carries
    under that name. *)
Record SpeechRecognitionResult : Type := {
  reason : ResultReason;
  properties : option (gmap jsstring jsstring);
  confidence : jsval;
  text : jsstring;
  offset : number;
  duration : number;
}.

Definition getProperty (props : gmap jsstring jsstring) (key : jsstring) : jsval :=
  match props !! key with
  | Some s => VString s
  | None => VUndefined
  end.

(** [e] of a [recognized] event; [e] and [e.result] may be missing. *)
Record EventArgs : Type := {
  result : option SpeechRecognitionResult;
}.

End SpeechSDK.

(* ===================================================================== *)
(** * The main program, shared by the three variants of [main.ts] *)
(* ===================================================================== *)

Module Pipeline.
Import RegExp Errors Model Effect.

(** What the program does that can be seen from outside, in order. *)
Inductive Action : Type :=
| ConsoleLog (line : jsstring)
| ConsoleLogJson (v : json)
| GetAudio (url : jsstring)
| Transcribe (audioFile : jsstring).

Definition validateUrl (isValidYouTubeUrl : jsstring → bool) (url : jsstring)
    : Exit TaggedError jsstring :=
  if isValidYouTubeUrl url then succeed url else fail (InvalidUrlError url).

Section program.
Variable getAudio : jsstring → Exit TaggedError jsstring.
Variable transcribe : jsstring → Exit TaggedError json.

Definition program (url : jsstring) : Exit TaggedError unit * list Action :=
  let log1 := [ConsoleLog (code_units "Processing URL: " ++ url); GetAudio url] in
  match getAudio url with
  | Success audioFile =>
      let log2 := log1 ++ [ConsoleLog (code_units "Audio downloaded to: " ++ audioFile);
                           Transcribe audioFile] in
      match transcribe audioFile with
      | Success subtitles => (Success (), log2 ++ [ConsoleLogJson subtitles])
      | Failure e => (Failure e, log2)
      | Interrupted => (Interrupted, log2)
      | Suspended => (Suspended, log2)
      end
  | Failure e => (Failure e, log1)
  | Interrupted => (Interrupted, log1)
  | Suspended => (Suspended, log1)
  end.

(** The handler of [Command.make]: validation first, the program only on a
    validated URL. *)
Definition command (isValidYouTubeUrl : jsstring → bool) (url : jsstring)
    : Exit TaggedError unit * list Action :=
  match validateUrl isValidYouTubeUrl url with
  | Success validatedUrl => program validatedUrl
  | Failure e => (Failure e, [])
  | Interrupted => (Interrupted, [])
  | Suspended => (Suspended, [])
  end.

End program.

End Pipeline.

(* ===================================================================== *)
(** * [src/main.ts]: continuous recognition *)
(* ===================================================================== *)

Module Main.
Import RegExp JS Errors Model Effect SpeechSDK.

(** [/^https?:\/\/(www\.)?(youtube\.com\/watch\?v=|youtu\.be\/)[a-zA-Z0-9_-]{11}.*$/] *)
Definition youtubeRegex : regex :=
  Cat (Str (code_units "http"))
 (Cat (Opt (Lit 115%N))
 (Cat (Str (code_units "://"))
 (Cat (Opt (Str (code_units "www.")))
 (Cat (Alt (Str (code_units "youtube.com/watch?v="))
           (Str (code_units "youtu.be/")))
 (Cat (Rep 11 (Cls id_char))
      (Star (Cls dot))))))).

Definition isValidYouTubeUrl (url : jsstring) : bool := test youtubeRegex url.

(** What the recognizer and the abort signal deliver, in order.  [Abort] is
    the signal firing: the fiber has been interrupted. *)
Inductive Event : Type :=
| Recognized (e : option EventArgs)
| SessionStopped
| CanceledEvent (e : unknown)
| Abort.

Definition is_abort (ev : Event) : bool :=
  match ev with
  | Abort => true
  | _ => false
  end.

Definition fallback_confidence : number := ratio 1 2.

(** [properties?.getProperty("Speech.Phrase.Confidence")] *)
Definition confidence_property (r : SpeechRecognitionResult) : jsval :=
  match properties r with
  | Some props => getProperty props (code_units "Speech.Phrase.Confidence")
  | None => VUndefined
  end.

(** [... || e.result.confidence || 0.5] *)
Definition confidence_of (r : SpeechRecognitionResult) : jsval :=
  or_else (or_else (confidence_property r) (confidence r))
    (VNumber fallback_confidence).

Definition ticks_per_ms : number := of_Z 10000.

(** The [recognized] handler on the array [results]. *)
Definition recognized (results : list SubtitleToken) (e : option EventArgs)
    : list SubtitleToken :=
  match e with
  | Some {| result := Some r |} =>
      if decide (reason r = RecognizedSpeech) then
        results ++
        [{| id := length results;
            value := text r;
            startTimeMs := Number (VNumber (num_div (offset r) ticks_per_ms));
            endTimeMs :=
              Number (VNumber (num_div (num_add (offset r) (duration r)) ticks_per_ms));
            score := Number (confidence_of r) |}]
      else results
  | _ => results
  end.

(** What [resolve] is called with: the array [results] itself, not a copy
    of it.  The [recognized] handler stays in place and goes on pushing to
    that same array after the promise has settled. *)
Inductive Ref : Type :=
| ResultsArray.

(** The contents of the array [results], and the promise. *)
Record Recognizer : Type := {
  results : list SubtitleToken;
  promise : Promise Ref;
}.

Definition on_event (st : Recognizer) (ev : Event) : Recognizer :=
  match ev with
  | Recognized e =>
      {| results := recognized (results st) e; promise := promise st |}
  | SessionStopped =>
      (* [resolve(results)] *)
      {| results := results st;
         promise := settle (promise st) (Resolved ResultsArray) |}
  | CanceledEvent e =>
      {| results := results st;
         promise := settle (promise st) (Rejected (Tagged (TranscriptionError e))) |}
  | Abort =>
      {| results := results st;
         promise := settle (promise st)
           (Rejected (Tagged (TranscriptionError (JsError (code_units "aborted"))))) |}
  end.

Definition run (events : list Event) : Recognizer :=
  foldl on_event {| results := []; promise := Pending |} events.

(** The promise as its value is read: through the reference, the array as
    it stands at that moment. *)
Definition read (st : Recognizer) : Promise json :=
  match promise st with
  | Resolved ResultsArray => Resolved (token_array (results st))
  | Rejected reason => Rejected reason
  | Pending => Pending
  end.

(** One recognition session: what reading the file and building the
    recognizer threw, if anything, and the events that followed, up to the
    moment the result of the call is read. *)
Record Session : Type := {
  setup : option unknown;
  events : list Event;
}.

(** The signal fired before the promise had settled. *)
Definition interrupted (session : Session) : bool :=
  match setup session with
  | Some _ => false
  | None =>
      signal_fired is_abort (λ st, is_pending (promise st)) on_event
        {| results := []; promise := Pending |} (events session)
  end.

Definition transcribe (sdk : jsstring → Session) (filePath : jsstring)
    : Exit TaggedError json :=
  tryPromise (interrupted (sdk filePath))
    (match setup (sdk filePath) with
     | Some err => Rejected err
     | None => read (run (events (sdk filePath)))
     end)
    (λ error, TranscriptionError error).

(** A recognized segment whose numbers are sound: a finite offset, a
    finite duration that is not negative, and a confidence that converts to
    a number between 0 and 1. *)
Definition sound_result (r : SpeechRecognitionResult) : Prop :=
  (∃ o d, offset r = Fin o ∧ duration r = Fin d ∧ (0 ≤ d)%Qc)
  ∧ num_le (of_Z 0) (Number (confidence_of r))
  ∧ num_le (Number (confidence_of r)) (of_Z 1).

Definition sound_event (ev : Event) : Prop :=
  match ev with
  | Recognized (Some {| result := Some r |}) =>
      reason r = RecognizedSpeech → sound_result r
  | _ => True
  end.

End Main.

(* ===================================================================== *)
(** * The [recognizeOnceAsync] variant of [main.ts] *)
(* ===================================================================== *)

Module MainOnce.
Import RegExp JS Errors Model Effect SpeechSDK.

(** The same pattern literal as in [src/main.ts]. *)
Definition youtubeRegex : regex := Main.youtubeRegex.
Definition isValidYouTubeUrl (url : jsstring) : bool := test youtubeRegex url.

(** [Abort] is the signal firing: the fiber has been interrupted. *)
Inductive Event : Type :=
| OnResult (result : SpeechRecognitionResult)
| OnError (error : jsstring)
| Timeout
| Abort.

Definition is_abort (ev : Event) : bool :=
  match ev with
  | Abort => true
  | _ => false
  end.

Definition placeholder_score : number := ratio 4 5.

(** The object literal of the success callback. *)
Definition subtitles (result : SpeechRecognitionResult) : list SubtitleToken :=
  [{| id := 0;
      value := or_empty (text result);
      startTimeMs := num_div (offset result) (of_Z 10000);
      endTimeMs := num_div (num_add (offset result) (duration result)) (of_Z 10000);
      score := placeholder_score |}].

Definition on_event (ev : Event) : Promise json :=
  match ev with
  | OnResult result =>
      if decide (reason result = RecognizedSpeech)
      then Resolved (JArray [token_array (subtitles result)])
      else Rejected (JsError (code_units "Unexpected result reason: "
                                ++ Z_to_string (reason_code (reason result))))
  | OnError error =>
      Rejected (JsError (code_units "Speech recognition error: " ++ error))
  | Timeout =>
      Rejected (JsError (code_units "Speech recognition timeout after 30 seconds"))
  | Abort => Rejected (JsError (code_units "Speech recognition aborted"))
  end.

Record Session : Type := {
  setup : option unknown;
  events : list Event;
}.

(** The signal fired before the promise had settled. *)
Definition interrupted (session : Session) : bool :=
  match setup session with
  | Some _ => false
  | None =>
      signal_fired is_abort is_pending (λ p ev, settle p (on_event ev))
        Pending (events session)
  end.

Definition transcribe (sdk : jsstring → Session) (filePath : jsstring)
    : Exit TaggedError json :=
  tryPromise (interrupted (sdk filePath))
    (match setup (sdk filePath) with
     | Some err => Rejected err
     | None => foldl (λ p ev, settle p (on_event ev)) Pending (events (sdk filePath))
     end)
    (λ error, TranscriptionError (as_Error error)).

(** A result with a finite offset and a finite duration that is not
    negative. *)
Definition sound_times (r : SpeechRecognitionResult) : Prop :=
  ∃ o d, offset r = Fin o ∧ duration r = Fin d ∧ (0 ≤ d)%Qc.

End MainOnce.

(* ===================================================================== *)
(** * The AssemblyAI variant of [main.ts]: submit and poll *)
(* ===================================================================== *)

Module MainAssemblyAI.
Import RegExp JS Errors Model Effect.

(** [/^(https?:\/\/)?(www\.)?(youtube\.com\/(?:[^\/\n\s]+\/\S+\/|(?:v|e(?:mbed)?)\/|\S*?[?&]v=)|youtu\.be\/)([a-zA-Z0-9_-]{11})$/] *)
Definition youtubeRegex : regex :=
  Cat (Opt (Cat (Str (code_units "http"))
           (Cat (Opt (Lit 115%N)) (Str (code_units "://")))))
 (Cat (Opt (Str (code_units "www.")))
 (Cat (Alt (Cat (Str (code_units "youtube.com/"))
                (Alt (Cat (Plus (Cls not_slash_space))
                     (Cat (Lit 47%N)
                     (Cat (Plus (Cls non_space))
                          (Lit 47%N))))
                (Alt (Cat (Alt (Lit 118%N)
                               (Cat (Lit 101%N) (Opt (Str (code_units "mbed")))))
                          (Lit 47%N))
                     (Cat (Star (Cls non_space))
                     (Cat (Cls query_sep)
                          (Str (code_units "v=")))))))
           (Str (code_units "youtu.be/")))
      (Rep 11 (Cls id_char)))).

Definition isValidYouTubeUrl (url : jsstring) : bool := test youtubeRegex url.

Module Word.
Record t : Type := {
  text : jsstring;
  start : number;
  end_ : number;
  confidence : number;
}.
End Word.

Record StatusData : Type := {
  status : jsstring;
  text : option jsstring;
  words : option (list Word.t);
  error : option jsstring;
}.

(** The service, as the client sees it: the answers to the upload, to the
    submission and to the [i]-th status request, and the state of the abort
    signal when the [i]-th iteration begins, which is where the code reads
    it.  The signal is aborted when the fiber has been interrupted; an
    interruption that arrives after the last reading of the signal is not
    among the runs a [Backend] describes. *)
Record Backend : Type := {
  readFile : jsstring → unknown + unit;
  upload : unknown + jsstring;
  submit : jsstring → unknown + jsstring;
  poll : jsstring → nat → unknown + StatusData;
  aborted : nat → bool;
}.

Definition MAX_POLL_TIME : Z := 20 * 60 * 1000.
Definition POLL_INTERVAL : Z := 3000.

(** [(statusData.words || []).map((w, i) => ({ ... }))] *)
Definition to_subtitles (statusData : StatusData) : list SubtitleToken :=
  imap (λ i w, {| id := i;
                  value := Word.text w;
                  startTimeMs := Word.start w;
                  endTimeMs := Word.end_ w;
                  score := Word.confidence w |})
       (default [] (words statusData)).

Inductive Branch : Type :=
| Completed
| Errored
| Waiting.

Definition branch (statusData : StatusData) : Branch :=
  if decide (status statusData = code_units "completed") then Completed
  else if decide (status statusData = code_units "error") then Errored
  else Waiting.

(** How the loop ended, after how many status requests, and the value of
    [elapsed] at that point. *)
Record Polled : Type := {
  settled : Promise json;
  requests : nat;
  slept : Z;
}.

Definition budget (elapsed : Z) : nat :=
  Z.to_nat ((MAX_POLL_TIME + POLL_INTERVAL - elapsed) `div` POLL_INTERVAL + 1).

(** The [while (!completed)] loop, entered at iteration [i] with [elapsed]. *)
Equations? poll_loop (status_of : nat → unknown + StatusData)
    (signal_aborted : nat → bool) (i : nat) (elapsed : Z) : Polled
  by wf (budget elapsed) lt :=
  poll_loop status_of signal_aborted i elapsed with signal_aborted i => {
    | true :=
        {| settled := Rejected (JsError (code_units "Transcription aborted"));
           requests := i; slept := elapsed |};
    | false with Z_gt_dec elapsed MAX_POLL_TIME => {
        | left _ :=
            {| settled := Rejected (JsError (code_units "Transcription timed out"));
               requests := i; slept := elapsed |};
        | right _ with status_of i => {
            | inl err :=
                {| settled := Rejected err; requests := S i; slept := elapsed |};
            | inr statusData with branch statusData => {
                | Completed :=
                    {| settled := Resolved (token_array (to_subtitles statusData));
                       requests := S i; slept := elapsed |};
                | Errored :=
                    {| settled :=
                         Rejected (JsError
                           (code_units "AssemblyAI transcription failed: "
                              ++ opt_to_string (error statusData)));
                       requests := S i; slept := elapsed |};
                | Waiting :=
                    poll_loop status_of signal_aborted (S i)
                      (elapsed + POLL_INTERVAL) } } } }.
Proof.
  unfold budget, MAX_POLL_TIME, POLL_INTERVAL in *.
  apply Z2Nat.inj_lt;
    try (apply Z.add_nonneg_nonneg; [apply Z.div_pos |]; lia).
  replace (20 * 60 * 1000 + 3000 - (elapsed + 3000))
    with (20 * 60 * 1000 + 3000 - elapsed + (-1) * 3000) by lia.
  rewrite Z.div_add by lia. lia.
Qed.

(** Whether the loop, entered at iteration [i] with [elapsed], leaves
    through its [signal.aborted] check: the same turns as [poll_loop]. *)
Equations? poll_interrupted (status_of : nat → unknown + StatusData)
    (signal_aborted : nat → bool) (i : nat) (elapsed : Z) : bool
  by wf (budget elapsed) lt :=
  poll_interrupted status_of signal_aborted i elapsed with signal_aborted i => {
    | true := true;
    | false with Z_gt_dec elapsed MAX_POLL_TIME => {
        | left _ := false;
        | right _ with status_of i => {
            | inl err := false;
            | inr statusData with branch statusData => {
                | Completed := false;
                | Errored := false;
                | Waiting :=
                    poll_interrupted status_of signal_aborted (S i)
                      (elapsed + POLL_INTERVAL) } } } }.
Proof.
  unfold budget, MAX_POLL_TIME, POLL_INTERVAL in *.
  apply Z2Nat.inj_lt;
    try (apply Z.add_nonneg_nonneg; [apply Z.div_pos |]; lia).
  replace (20 * 60 * 1000 + 3000 - (elapsed + 3000))
    with (20 * 60 * 1000 + 3000 - elapsed + (-1) * 3000) by lia.
  rewrite Z.div_add by lia. lia.
Qed.

(** The loop found the signal aborted: the fiber was interrupted while the
    promise was pending. *)
Definition interrupted (backend : Backend) (filePath : jsstring) : bool :=
  match readFile backend filePath with
  | inl _ => false
  | inr _ =>
      match upload backend with
      | inl _ => false
      | inr upload_url =>
          match submit backend upload_url with
          | inl _ => false
          | inr transcriptId =>
              poll_interrupted (poll backend transcriptId) (aborted backend) 0 0
          end
      end
  end.

Definition transcribe (backend : Backend) (filePath : jsstring)
    : Exit TaggedError json :=
  tryPromise (interrupted backend filePath)
    (match readFile backend filePath with
     | inl err => Rejected err
     | inr _ =>
         match upload backend with
         | inl err => Rejected err
         | inr upload_url =>
             match submit backend upload_url with
             | inl err => Rejected err
             | inr transcriptId =>
                 settled (poll_loop (poll backend transcriptId)
                            (aborted backend) 0 0)
             end
         end
     end)
    (λ error, TranscriptionError (as_Error error)).

(** A status that is neither ["completed"] nor ["error"]. *)
Definition non_terminal (response : unknown + StatusData) : Prop :=
  match response with
  | inr statusData => branch statusData = Waiting
  | inl _ => False
  end.

(** A word whose numbers are sound: it does not end before it starts and
    its confidence lies between 0 and 1. *)
Definition sound_word (w : Word.t) : Prop :=
  num_le (Word.start w) (Word.end_ w)
  ∧ num_le (of_Z 0) (Word.confidence w)
  ∧ num_le (Word.confidence w) (of_Z 1).

End MainAssemblyAI.

(* ===================================================================== *)
(** * Scripted collaborators *)
(* ===================================================================== *)

Module Scripted.
Import RegExp JS Errors Model Effect SpeechSDK.

Definition tmp_sys : FileSystemService.Sys :=
  {| FileSystemService.realpath_tmpdir := inr (code_units "/tmp");
     FileSystemService.now := 1700000000000 |}.

Definition video_url : jsstring :=
  code_units "https://www.youtube.com/watch?v=dQw4w9WgXcQ".

Definition audio_path : jsstring :=
  code_units "/tmp/fluent-ai-subtitles-1700000000000.wav".

(** An extraction process that closes with the given code. *)
Definition exits_with (code : option Z) (args : list jsstring)
    : YouTubeDownloader.Run :=
  {| YouTubeDownloader.proc := YouTubeDownloader.ChildProcess;
     YouTubeDownloader.timeline := [YouTubeDownloader.OnClose code] |}.

(** One recognized segment: "hello" at offset 0, lasting 50,000 ticks. *)
Definition hello_result : SpeechRecognitionResult :=
  {| reason := RecognizedSpeech;
     properties := None;
     confidence := VUndefined;
     text := code_units "hello";
     offset := of_Z 0;
     duration := of_Z 50000 |}.

Definition hello_once (filePath : jsstring) : MainOnce.Session :=
  {| MainOnce.setup := None;
     MainOnce.events := [MainOnce.OnResult hello_result] |}.

(** A segment whose confidence is reported as the number 0. *)
Definition zero_number_result : SpeechRecognitionResult :=
  {| reason := RecognizedSpeech;
     properties := None;
     confidence := VNumber (of_Z 0);
     text := code_units "hello";
     offset := of_Z 0;
     duration := of_Z 50000 |}.

(** A segment whose confidence property holds the text ["0"]. *)
Definition zero_text_result : SpeechRecognitionResult :=
  {| reason := RecognizedSpeech;
     properties :=
       Some {[ code_units "Speech.Phrase.Confidence" := code_units "0" ]};
     confidence := VUndefined;
     text := code_units "hello";
     offset := of_Z 0;
     duration := of_Z 50000 |}.

Definition session_of (r : SpeechRecognitionResult) (filePath : jsstring)
    : Main.Session :=
  {| Main.setup := None;
     Main.events :=
       [Main.Recognized (Some {| result := Some r |}); Main.SessionStopped] |}.

(** A service that accepts the upload and the submission and answers every
    status request with the given data. *)
Definition always (statusData : MainAssemblyAI.StatusData)
    : MainAssemblyAI.Backend :=
  {| MainAssemblyAI.readFile := λ _, inr ();
     MainAssemblyAI.upload := inr (code_units "https://cdn.example/upload/1");
     MainAssemblyAI.submit := λ _, inr (code_units "job-1");
     MainAssemblyAI.poll := λ _ _, inr statusData;
     MainAssemblyAI.aborted := λ _, false |}.

Definition completed_with (ws : list MainAssemblyAI.Word.t)
    : MainAssemblyAI.StatusData :=
  {| MainAssemblyAI.status := code_units "completed";
     MainAssemblyAI.text := None;
     MainAssemblyAI.words := Some ws;
     MainAssemblyAI.error := None |}.

Definition queued : MainAssemblyAI.StatusData :=
  {| MainAssemblyAI.status := code_units "queued";
     MainAssemblyAI.text := None;
     MainAssemblyAI.words := None;
     MainAssemblyAI.error := None |}.

(** [{text: "hi", start: 100, end: 400, confidence: 0.9}] *)
Definition hi_word : MainAssemblyAI.Word.t :=
  {| MainAssemblyAI.Word.text := code_units "hi";
     MainAssemblyAI.Word.start := of_Z 100;
     MainAssemblyAI.Word.end_ := of_Z 400;
     MainAssemblyAI.Word.confidence := ratio 9 10 |}.

(** [{text: "hi", start: 400, end: 100, confidence: 1.5}] *)
Definition backwards_word : MainAssemblyAI.Word.t :=
  {| MainAssemblyAI.Word.text := code_units "hi";
     MainAssemblyAI.Word.start := of_Z 400;
     MainAssemblyAI.Word.end_ := of_Z 100;
     MainAssemblyAI.Word.confidence := ratio 3 2 |}.

End Scripted.

(* ===================================================================== *)
(** * The input validation grammar, as the specification words it *)
(* ===================================================================== *)

Module Spec.
Import RegExp.

(** [[A-Za-z0-9_-]] *)
Definition id_symbol (c : char) : Prop :=
  (65 ≤ c ≤ 90)%N ∨ (97 ≤ c ≤ 122)%N ∨ (48 ≤ c ≤ 57)%N ∨ c = 95%N ∨ c = 45%N.

(** [.]: any code unit that does not end a line. *)
Definition any_symbol (c : char) : Prop :=
  c ≠ 10%N ∧ c ≠ 13%N ∧ c ≠ 8232%N ∧ c ≠ 8233%N.

(** [^https?://(www\.)?(<host1>/watch\?v=|<host2>/)[A-Za-z0-9_-]{11}.*$] *)
Definition url_grammar (s : jsstring) : Prop :=
  ∃ scheme www host id rest,
    s = scheme ++ www ++ host ++ id ++ rest
    ∧ (scheme = code_units "http://" ∨ scheme = code_units "https://")
    ∧ (www = [] ∨ www = code_units "www.")
    ∧ (host = code_units "youtube.com/watch?v=" ∨ host = code_units "youtu.be/")
    ∧ length id = 11%nat
    ∧ Forall id_symbol id
    ∧ Forall any_symbol rest.

End Spec.

(* ===================================================================== *)
(** * The command under [Effect.scoped], with the downloader wired in *)
(* ===================================================================== *)

Module App.
Import RegExp Errors Model Effect FileSystemService YouTubeDownloader Pipeline.

(** Closing a scope runs the finalizers left in it, the last one first. *)
Definition close_scope (disk : Disk) (finalizers : list jsstring) : Disk :=
  foldr (λ path d, (cleanupFile d path).2) disk finalizers.

Record Ran : Type := {
  exit : Exit TaggedError unit;
  trace : list Action;
  disk_after : Disk;
}.

(** [Effect.provide(program, appLayer)] under [Effect.scoped]: [disk] is the
    disk as the program leaves it; the scope is closed once the program has
    ended, whether it succeeded or failed. *)
Definition run (isValidYouTubeUrl : jsstring → bool) (sys : Sys)
    (exec : list jsstring → Run)
    (transcribe : jsstring → Exit TaggedError json)
    (disk : Disk) (url : jsstring) : Ran :=
  let ended :=
    command (λ u, outcome (getAudio sys exec u)) transcribe
      isValidYouTubeUrl url in
  let scope :=
    if isValidYouTubeUrl url then to_release (getAudio sys exec url) else [] in
  {| exit := ended.1;
     trace := ended.2;
     disk_after :=
       match ended.1 with
       | Suspended => disk
       | _ => close_scope disk scope
       end |}.

End App.

(* ===================================================================== *)
(** * Vocabulary of the properties *)
(* ===================================================================== *)

Module Observations.
Import RegExp JS Errors Model Effect SpeechSDK.

(** Every class of the pattern lies within [P]. *)
Fixpoint classes_within (P : char → Prop) (r : regex) : Prop :=
  match r with
  | Void | Eps => True
  | Cls p => ∀ c, p c = true → P c
  | Cat r1 r2 | Alt r1 r2 => classes_within P r1 ∧ classes_within P r2
  | Star r1 => classes_within P r1
  end.

Definition space_free (s : jsstring) : Prop :=
  Forall (λ c, white_space c = false) s.

(** A [recognized] event, whatever it carries. *)
Definition is_segment (ev : Main.Event) : Prop :=
  match ev with
  | Main.Recognized _ => True
  | _ => False
  end.

(** The results of the events on which the [recognized] handler pushes a
    token, in order of arrival. *)
Definition spoken (events : list Main.Event) : list SpeechRecognitionResult :=
  omap (λ ev, match ev with
              | Main.Recognized (Some {| result := Some r |}) =>
                  if decide (reason r = RecognizedSpeech) then Some r else None
              | _ => None
              end) events.

(** The object the handler pushes for [r] when the array holds [n] tokens. *)
Definition pushed (n : nat) (r : SpeechRecognitionResult) : SubtitleToken :=
  {| id := n;
     value := text r;
     startTimeMs := Number (VNumber (num_div (offset r) Main.ticks_per_ms));
     endTimeMs :=
       Number (VNumber (num_div (num_add (offset r) (duration r)) Main.ticks_per_ms));
     score := Number (Main.confidence_of r) |}.

(** The events no listener of the downloader reacts to, by kind of [proc]. *)
Definition unheard (kind : YouTubeDownloader.ProcKind)
    (ev : YouTubeDownloader.Event) : Prop :=
  YouTubeDownloader.on_event kind ev = Pending.

End Observations.

(* ===================================================================== *)
(** * Further scripted collaborators *)
(* ===================================================================== *)

Module Cases.
Import RegExp JS Errors Model Effect SpeechSDK.

Definition spawn_error : unknown := SystemError (code_units "ENOENT").

(** A process that reports an error before it closes. *)
Definition errors_then_closes (args : list jsstring) : YouTubeDownloader.Run :=
  {| YouTubeDownloader.proc := YouTubeDownloader.ChildProcess;
     YouTubeDownloader.timeline :=
       [YouTubeDownloader.OnError spawn_error;
        YouTubeDownloader.OnClose (Some 1)] |}.

(** An interruption while the process is still running. *)
Definition aborted_then_closes (args : list jsstring) : YouTubeDownloader.Run :=
  {| YouTubeDownloader.proc := YouTubeDownloader.ChildProcess;
     YouTubeDownloader.timeline :=
       [YouTubeDownloader.Abort; YouTubeDownloader.OnClose (Some 0)] |}.

(** A wrapper that hands back a promise, here a rejected one. *)
Definition rejecting_promise (args : list jsstring) : YouTubeDownloader.Run :=
  {| YouTubeDownloader.proc := YouTubeDownloader.Thenable;
     YouTubeDownloader.timeline := [YouTubeDownloader.RejectedWith spawn_error] |}.

Definition no_tmpdir : FileSystemService.Sys :=
  {| FileSystemService.realpath_tmpdir := inl spawn_error;
     FileSystemService.now := 1700000000000 |}.

(** A disk that holds the downloaded audio and one other file. *)
Definition disk_with_audio : FileSystemService.Disk :=
  {| FileSystemService.files :=
       {[ Scripted.audio_path; code_units "/tmp/keep.txt" ]};
     FileSystemService.faults := ∅ |}.

Definition no_match_result : SpeechRecognitionResult :=
  {| reason := NoMatch;
     properties := None;
     confidence := VUndefined;
     text := [];
     offset := of_Z 0;
     duration := of_Z 0 |}.

Definition segment (r : SpeechRecognitionResult) : Main.Event :=
  Main.Recognized (Some {| result := Some r |}).

Definition session (evs : list Main.Event) (filePath : jsstring) : Main.Session :=
  {| Main.setup := None; Main.events := evs |}.

Definition once (evs : list MainOnce.Event) (filePath : jsstring)
    : MainOnce.Session :=
  {| MainOnce.setup := None; MainOnce.events := evs |}.

Definition failed_with (message : option jsstring) : MainAssemblyAI.StatusData :=
  {| MainAssemblyAI.status := code_units "error";
     MainAssemblyAI.text := None;
     MainAssemblyAI.words := None;
     MainAssemblyAI.error := message |}.

(** A service whose [k] first answers are ["queued"] and whose later
    answers are [last]; the fiber is interrupted in time for iteration
    [stop] to find the signal aborted. *)
Definition queued_then (k : nat) (last : MainAssemblyAI.StatusData)
    (stop : option nat) : MainAssemblyAI.Backend :=
  {| MainAssemblyAI.readFile := λ _, inr ();
     MainAssemblyAI.upload := inr (code_units "https://cdn.example/upload/1");
     MainAssemblyAI.submit := λ _, inr (code_units "job-1");
     MainAssemblyAI.poll :=
       λ _ i, inr (if decide (i < k)%nat then Scripted.queued else last);
     MainAssemblyAI.aborted :=
       λ i, match stop with
            | Some n => bool_decide (n ≤ i)%nat
            | None => false
            end |}.

(** A service that refuses the upload. *)
Definition upload_refused : MainAssemblyAI.Backend :=
  {| MainAssemblyAI.readFile := λ _, inr ();
     MainAssemblyAI.upload := inl (JsError (code_units "fetch failed"));
     MainAssemblyAI.submit := λ _, inr (code_units "job-1");
     MainAssemblyAI.poll := λ _ _, inr Scripted.queued;
     MainAssemblyAI.aborted := λ _, false |}.

End Cases.

(* ===================================================================== *)
(** * Properties *)
(* ===================================================================== *)

Section regexp_facts.
Import RegExp.
Implicit Types (r : regex) (s w : jsstring) (c : char).

Lemma Matches_Eps_iff s : Matches Eps s ↔ s = [].
Proof.
  split; [by inversion 1 | intros ->; constructor].
Qed.

Lemma Matches_Void_iff s : Matches Void s ↔ False.
Proof. split; [by inversion 1 | done]. Qed.

Lemma Matches_Cls_iff p s : Matches (Cls p) s ↔ ∃ c, s = [c] ∧ p c = true.
Proof.
  split.
  - inversion 1; subst; eauto.
  - intros (c & -> & Hp). by constructor.
Qed.

Lemma Matches_Cat_iff r1 r2 s :
  Matches (Cat r1 r2) s ↔ ∃ s1 s2, s = s1 ++ s2 ∧ Matches r1 s1 ∧ Matches r2 s2.
Proof.
  split.
  - inversion 1; subst; eauto.
  - intros (s1 & s2 & -> & H1 & H2). by constructor.
Qed.

Lemma Matches_Alt_iff r1 r2 s :
  Matches (Alt r1 r2) s ↔ Matches r1 s ∨ Matches r2 s.
Proof.
  split.
  - inversion 1; subst; auto.
  - intros [H | H]; [by apply MAltL | by apply MAltR].
Qed.

Lemma Matches_Opt_iff r s : Matches (Opt r) s ↔ Matches r s ∨ s = [].
Proof. unfold Opt. by rewrite Matches_Alt_iff, Matches_Eps_iff. Qed.

Lemma Matches_Lit_iff c s : Matches (Lit c) s ↔ s = [c].
Proof.
  unfold Lit. rewrite Matches_Cls_iff. split.
  - intros (c' & -> & Heq). apply N.eqb_eq in Heq. by subst.
  - intros ->. exists c. split; [done | apply N.eqb_refl].
Qed.

Lemma Matches_Str_iff w s : Matches (Str w) s ↔ s = w.
Proof.
  revert s. induction w as [| c w IH]; intros s; simpl.
  - apply Matches_Eps_iff.
  - rewrite Matches_Cat_iff. split.
    + intros (s1 & s2 & -> & H1 & H2).
      apply Matches_Lit_iff in H1. apply IH in H2. by subst.
    + intros ->. exists [c], w. split; [done |].
      split; [by apply Matches_Lit_iff | by apply IH].
Qed.

Lemma Matches_Star_Cls_iff p s :
  Matches (Star (Cls p)) s ↔ Forall (λ c, p c = true) s.
Proof.
  split.
  - intros H. remember (Star (Cls p)) as r eqn:Hr.
    induction H as [| | | | | r0 | r0 s1 s2 H1 _ H2 IH2]; try discriminate.
    + constructor.
    + injection Hr as ->. apply Matches_Cls_iff in H1 as (c & -> & Hp).
      constructor; [done | by apply IH2].
  - induction 1 as [| c s Hp _ IH]; [constructor |].
    change (c :: s) with ([c] ++ s). constructor; [by constructor | done].
Qed.

Lemma Matches_Rep_Cls_iff p n s :
  Matches (Rep n (Cls p)) s ↔ length s = n ∧ Forall (λ c, p c = true) s.
Proof.
  revert s. induction n as [| n IH]; intros s; simpl.
  - rewrite Matches_Eps_iff. split.
    + intros ->. by split.
    + intros [Hlen _]. by destruct s.
  - rewrite Matches_Cat_iff. split.
    + intros (s1 & s2 & -> & H1 & H2).
      apply Matches_Cls_iff in H1 as (c & -> & Hp).
      apply IH in H2 as [Hlen Hall]. simpl. split; [by f_equal | by constructor].
    + intros [Hlen Hall]. destruct s as [| c s]; [done |].
      inversion Hall; subst. exists [c], s. split; [done |].
      split; [by constructor | apply IH; split; [by injection Hlen | done]].
Qed.

Lemma nullable_Matches r : nullable r = true ↔ Matches r [].
Proof.
  induction r as [| | p | r1 IH1 r2 IH2 | r1 IH1 r2 IH2 | r IH]; simpl.
  - by rewrite Matches_Void_iff.
  - by rewrite Matches_Eps_iff.
  - rewrite Matches_Cls_iff. split; [done | by intros (c & ? & _)].
  - rewrite andb_true_iff, IH1, IH2, Matches_Cat_iff. split.
    + intros [H1 H2]. by exists [], [].
    + intros (s1 & s2 & Heq & H1 & H2).
      symmetry in Heq. apply app_eq_nil in Heq as [-> ->]. by split.
  - by rewrite orb_true_iff, IH1, IH2, Matches_Alt_iff.
  - split; [intros _; constructor | done].
Qed.

Lemma Matches_cat r1 r2 s : Matches (cat r1 r2) s ↔ Matches (Cat r1 r2) s.
Proof.
  rewrite Matches_Cat_iff.
  assert (Hvoid : ∀ ra rb, (ra = Void ∨ rb = Void) →
            False ↔ ∃ s1 s2, s = s1 ++ s2 ∧ Matches ra s1 ∧ Matches rb s2).
  { intros ra rb Hab. split; [done |]. intros (s1 & s2 & _ & H1 & H2).
    destruct Hab as [-> | ->]; [inversion H1 | inversion H2]. }
  assert (Heps : ∀ rb,
            Matches rb s ↔ ∃ s1 s2, s = s1 ++ s2 ∧ Matches Eps s1 ∧ Matches rb s2).
  { intros rb. split.
    - intros H. exists [], s. split; [done | split; [constructor | done]].
    - intros (s1 & s2 & -> & H1 & H2). apply Matches_Eps_iff in H1. by subst. }
  destruct r1, r2; simpl;
    first [ apply Heps
          | apply Matches_Cat_iff
          | rewrite Matches_Void_iff; apply Hvoid; auto ].
Qed.

Lemma Matches_alt r1 r2 s : Matches (alt r1 r2) s ↔ Matches (Alt r1 r2) s.
Proof.
  rewrite Matches_Alt_iff.
  destruct r1, r2; simpl; try rewrite Matches_Alt_iff; try done;
    rewrite ?Matches_Void_iff; tauto.
Qed.

Lemma Matches_Star_cons r c s :
  Matches (Star r) (c :: s) →
  ∃ s1 s2, s = s1 ++ s2 ∧ Matches r (c :: s1) ∧ Matches (Star r) s2.
Proof.
  intros H. remember (Star r) as r' eqn:Hr. remember (c :: s) as w eqn:Hw.
  induction H as [| | | | | r0 | r0 s1 s2 H1 _ H2 IH2]; try discriminate.
  injection Hr as ->. destruct s1 as [| c' s1]; simpl in Hw.
  - by apply IH2.
  - injection Hw as <- <-. eauto.
Qed.

Lemma deriv_Matches c r s : Matches (deriv c r) s ↔ Matches r (c :: s).
Proof.
  revert s.
  induction r as [| | p | r1 IH1 r2 IH2 | r1 IH1 r2 IH2 | r IH]; intros s; simpl.
  - rewrite !Matches_Void_iff. done.
  - rewrite Matches_Void_iff, Matches_Eps_iff. done.
  - rewrite Matches_Cls_iff. destruct (p c) eqn:Hp.
    + rewrite Matches_Eps_iff. split.
      * intros ->. eauto.
      * intros (c' & [= -> ->] & _). done.
    + rewrite Matches_Void_iff. split; [done |].
      intros (c' & [= -> ->] & Hp'). congruence.
  - assert (Hhead : Matches (cat (deriv c r1) r2) s ↔
              ∃ s1 s2, s = s1 ++ s2 ∧ Matches r1 (c :: s1) ∧ Matches r2 s2).
    { rewrite Matches_cat, Matches_Cat_iff.
      split; intros (s1 & s2 & -> & H1 & H2); exists s1, s2;
        (split; [done | split; [by apply IH1 | done]]). }
    rewrite (Matches_Cat_iff r1 r2 (c :: s)).
    destruct (nullable r1) eqn:Hn.
    + rewrite Matches_alt, Matches_Alt_iff, Hhead, IH2. split.
      * intros [(s1 & s2 & -> & H1 & H2) | H2].
        -- by exists (c :: s1), s2.
        -- exists [], (c :: s). split; [done |].
           split; [by apply nullable_Matches | done].
      * intros (s1 & s2 & Heq & H1 & H2). destruct s1 as [| c' s1]; simpl in Heq.
        -- right. by subst.
        -- injection Heq as -> ->. left. eauto.
    + rewrite Hhead. split.
      * intros (s1 & s2 & -> & H1 & H2). by exists (c :: s1), s2.
      * intros (s1 & s2 & Heq & H1 & H2). destruct s1 as [| c' s1]; simpl in Heq.
        -- apply nullable_Matches in H1. congruence.
        -- injection Heq as -> ->. eauto.
  - by rewrite Matches_alt, !Matches_Alt_iff, IH1, IH2.
  - rewrite Matches_cat, Matches_Cat_iff. split.
    + intros (s1 & s2 & -> & H1 & H2). apply IH in H1.
      change (c :: s1 ++ s2) with ((c :: s1) ++ s2). by constructor.
    + intros H. apply Matches_Star_cons in H as (s1 & s2 & -> & H1 & H2).
      exists s1, s2. split; [done | split; [by apply IH | done]].
Qed.

Lemma matches_Matches r s : matches r s = true ↔ Matches r s.
Proof.
  revert r. induction s as [| c s IH]; intros r; simpl.
  - apply nullable_Matches.
  - by rewrite IH, deriv_Matches.
Qed.

End regexp_facts.

(** ** URL validation *)

Section validation.
Import RegExp Errors Effect Pipeline.

Lemma id_char_symbol c : id_char c = true ↔ Spec.id_symbol c.
Proof.
  unfold id_char, in_range, Spec.id_symbol.
  rewrite !orb_true_iff, !andb_true_iff, !N.leb_le, !N.eqb_eq. tauto.
Qed.

Lemma dot_symbol c : dot c = true ↔ Spec.any_symbol c.
Proof.
  unfold dot, line_terminator, Spec.any_symbol.
  rewrite negb_true_iff, !orb_false_iff, !N.eqb_neq. tauto.
Qed.

Lemma Forall_class (p : char → bool) (P : char → Prop) s :
  (∀ c, p c = true ↔ P c) → Forall (λ c, p c = true) s ↔ Forall P s.
Proof. intros HpP. apply Forall_proper; [intros c; apply HpP | done]. Qed.

(** The pattern of [src/main.ts] denotes the grammar of the specification. *)
Lemma youtubeRegex_grammar s : Matches Main.youtubeRegex s ↔ Spec.url_grammar s.
Proof.
  unfold Main.youtubeRegex, Spec.url_grammar. split.
  - intros H.
    apply Matches_Cat_iff in H as (s1 & t1 & -> & H1 & H).
    apply Matches_Cat_iff in H as (s2 & t2 & -> & H2 & H).
    apply Matches_Cat_iff in H as (s3 & t3 & -> & H3 & H).
    apply Matches_Cat_iff in H as (s4 & t4 & -> & H4 & H).
    apply Matches_Cat_iff in H as (s5 & t5 & -> & H5 & H).
    apply Matches_Cat_iff in H as (s6 & s7 & -> & H6 & H7).
    apply Matches_Str_iff in H1 as ->. apply Matches_Str_iff in H3 as ->.
    apply Matches_Opt_iff in H2. apply Matches_Opt_iff in H4.
    apply Matches_Alt_iff in H5.
    apply Matches_Rep_Cls_iff in H6 as [Hlen Hid].
    apply Matches_Star_Cls_iff in H7.
    exists (code_units "http" ++ s2 ++ code_units "://"), s4, s5, s6, s7.
    split; [by rewrite <- !app_assoc |].
    split.
    { destruct H2 as [H2 | ->]; [apply Matches_Lit_iff in H2 as -> |]; auto. }
    split.
    { destruct H4 as [H4 | ->]; [apply Matches_Str_iff in H4 as -> |]; auto. }
    split.
    { destruct H5 as [H5 | H5]; apply Matches_Str_iff in H5 as ->; auto. }
    split; [done |].
    split; [by apply (Forall_class _ _ _ id_char_symbol) |
            by apply (Forall_class _ _ _ dot_symbol)].
  - intros (scheme & www & host & id & rest & -> & Hs & Hw & Hh & Hlen & Hid & Hrest).
    assert (Hscheme : ∃ s2, scheme = code_units "http" ++ s2 ++ code_units "://"
                            ∧ Matches (Opt (Lit 115%N)) s2).
    { destruct Hs as [-> | ->].
      - exists []. split; [done |]. apply Matches_Opt_iff. by right.
      - exists [115%N]. split; [done |]. apply Matches_Opt_iff. left.
        by apply Matches_Lit_iff. }
    destruct Hscheme as (s2 & -> & H2). rewrite <- !app_assoc.
    constructor; [by apply Matches_Str_iff |].
    constructor; [done |].
    constructor; [by apply Matches_Str_iff |].
    constructor.
    { apply Matches_Opt_iff. destruct Hw as [-> | ->]; [by right | left].
      by apply Matches_Str_iff. }
    constructor.
    { apply Matches_Alt_iff.
      destruct Hh as [-> | ->]; [left | right]; by apply Matches_Str_iff. }
    constructor.
    + apply Matches_Rep_Cls_iff. split; [done |].
      by apply (Forall_class _ _ _ id_char_symbol).
    + apply Matches_Star_Cls_iff. by apply (Forall_class _ _ _ dot_symbol).
Qed.

Lemma isValidYouTubeUrl_grammar s :
  Main.isValidYouTubeUrl s = true ↔ Spec.url_grammar s.
Proof.
  unfold Main.isValidYouTubeUrl, test.
  by rewrite matches_Matches, youtubeRegex_grammar.
Qed.

(** The inputs the specification names as rejected. *)
Example empty_string_rejected :
  validateUrl Main.isValidYouTubeUrl [] = Failure (InvalidUrlError []).
Proof. reflexivity. Qed.

Example other_host_rejected :
  validateUrl Main.isValidYouTubeUrl (code_units "https://vimeo.com/123456")
  = Failure (InvalidUrlError (code_units "https://vimeo.com/123456")).
Proof. vm_compute. reflexivity. Qed.

Example short_id_rejected :
  validateUrl Main.isValidYouTubeUrl (code_units "https://youtu.be/dQw4w9WgXc")
  = Failure (InvalidUrlError (code_units "https://youtu.be/dQw4w9WgXc")).
Proof. vm_compute. reflexivity. Qed.

Example watch_url_accepted :
  validateUrl Main.isValidYouTubeUrl
    (code_units "http://youtube.com/watch?v=dQw4w9WgXcQ&t=30s")
  = Success (code_units "http://youtube.com/watch?v=dQw4w9WgXcQ&t=30s").
Proof. vm_compute. reflexivity. Qed.

(** C1, as amended.  In [src/main.ts] (and in the [recognizeOnceAsync]
    variant, which repeats its pattern) validation of a string [s] succeeds,
    yielding [s], exactly when [s] matches the grammar of the specification;
    every other string fails with [InvalidUrlError] carrying it, and the
    command then ends with that failure without logging, downloading or
    transcribing anything. *)
Theorem validateUrl_iff_grammar (s : jsstring) :
  (validateUrl Main.isValidYouTubeUrl s = Success s ↔ Spec.url_grammar s)
  ∧ (validateUrl Main.isValidYouTubeUrl s = Failure (InvalidUrlError s)
     ↔ ¬ Spec.url_grammar s)
  ∧ (validateUrl MainOnce.isValidYouTubeUrl s = validateUrl Main.isValidYouTubeUrl s)
  ∧ (∀ getAudio transcribe,
       command getAudio transcribe Main.isValidYouTubeUrl s
       = (Failure (InvalidUrlError s), [])
       ↔ ¬ Spec.url_grammar s).
Proof.
  pose proof (isValidYouTubeUrl_grammar s) as Hg.
  unfold command, validateUrl, succeed, fail.
  change (MainOnce.isValidYouTubeUrl s) with (Main.isValidYouTubeUrl s).
  destruct (Main.isValidYouTubeUrl s) eqn:Hv.
  - assert (Spec.url_grammar s) by by apply Hg.
    repeat split; try done.
    unfold program. intros Hc.
    destruct (getAudio s) as [audioFile | | |];
      [destruct (transcribe audioFile) |..]; discriminate Hc.
  - assert (¬ Spec.url_grammar s) by (rewrite <- Hg; congruence).
    repeat split; done.
Qed.

(** C1, as stated, fails on the validator of the AssemblyAI variant: a URL
    of the grammar with a query parameter after the video id is rejected. *)
Lemma assemblyai_validator_rejects_grammar_url :
  let s := code_units "https://www.youtube.com/watch?v=dQw4w9WgXcQ&t=30s" in
  Spec.url_grammar s
  ∧ validateUrl MainAssemblyAI.isValidYouTubeUrl s = Failure (InvalidUrlError s).
Proof.
  split; [| vm_compute; reflexivity].
  apply isValidYouTubeUrl_grammar. vm_compute. reflexivity.
Qed.

(** In the other direction it accepts a string outside the grammar. *)
Example assemblyai_validator_accepts_without_scheme :
  let s := code_units "youtu.be/dQw4w9WgXcQ" in
  ¬ Spec.url_grammar s
  ∧ validateUrl MainAssemblyAI.isValidYouTubeUrl s = Success s.
Proof.
  split; [| vm_compute; reflexivity].
  rewrite <- isValidYouTubeUrl_grammar. vm_compute. congruence.
Qed.

End validation.

(** ** Temporary files *)

Section decimal_facts.
Import RegExp JS.

Lemma code_units_inj s1 s2 : code_units s1 = code_units s2 → s1 = s2.
Proof.
  revert s2. induction s1 as [| a s1 IH]; intros [| b s2]; simpl; try done.
  intros [= Hab Hs]. f_equal; [| by apply IH].
  by rewrite <- (ascii_N_embedding a), <- (ascii_N_embedding b), Hab.
Qed.

Lemma Z_to_int_proper z :
  Z.to_int z ≠ Decimal.Pos Decimal.Nil ∧ Z.to_int z ≠ Decimal.Neg Decimal.Nil.
Proof.
  split; intros H; pose proof (DecimalZ.of_to z) as Hz;
    rewrite H in Hz; simpl in Hz; subst z; discriminate H.
Qed.

Lemma Z_to_string_inj z1 z2 : Z_to_string z1 = Z_to_string z2 → z1 = z2.
Proof.
  unfold Z_to_string. intros H%code_units_inj.
  destruct (Z_to_int_proper z1) as [Hp1 Hn1], (Z_to_int_proper z2) as [Hp2 Hn2].
  pose proof (NilZero.isi _ Hp1 Hn1) as H1.
  pose proof (NilZero.isi _ Hp2 Hn2) as H2.
  rewrite H, H2 in H1. injection H1 as H1.
  by rewrite <- (DecimalZ.of_to z1), <- (DecimalZ.of_to z2), H1.
Qed.

Lemma string_of_uint_no_slash d :
  Path.slash ∉ code_units (NilEmpty.string_of_uint d).
Proof.
  induction d; simpl; [apply not_elem_of_nil |..];
    (apply not_elem_of_cons; split; [by vm_compute | done]).
Qed.

Lemma Z_to_string_no_slash z : Path.slash ∉ Z_to_string z.
Proof.
  assert (Hu : ∀ d, Path.slash ∉ code_units (NilZero.string_of_uint d)).
  { intros d. pose proof (string_of_uint_no_slash d) as Hd.
    destruct d; simpl in *; try done.
    apply not_elem_of_cons. split; [by vm_compute | apply not_elem_of_nil]. }
  unfold Z_to_string. destruct (Z.to_int z) as [d | d]; simpl; [apply Hu |].
  apply not_elem_of_cons. split; [by vm_compute | apply Hu].
Qed.

Lemma Z_to_string_head z : head (Z_to_string z) ≠ Some 110%N.
Proof.
  assert (Hu : ∀ d, head (code_units (NilZero.string_of_uint d)) ≠ Some 110%N)
    by (intros d; by destruct d).
  unfold Z_to_string. destruct (Z.to_int z) as [d | d]; simpl; [apply Hu | done].
Qed.

Lemma code_to_string_inj code1 code2 :
  code_to_string code1 = code_to_string code2 → code1 = code2.
Proof.
  destruct code1 as [z1 |], code2 as [z2 |]; simpl; intros H; try done.
  - f_equal. by apply Z_to_string_inj.
  - by destruct (Z_to_string_head z1); rewrite H.
  - by destruct (Z_to_string_head z2); rewrite <- H.
Qed.

End decimal_facts.

Section path_facts.
Import RegExp Path.
Implicit Types (path dir name : jsstring) (segs kept : list jsstring).

Lemma split_nonempty path : split path ≠ [].
Proof.
  destruct path as [| c path]; cbn [split]; [done |].
  case_decide; [done |]. by destruct (split path).
Qed.

Lemma split_file_name name : slash ∉ name → split name = [name].
Proof.
  induction name as [| c name IH]; [done |].
  intros [Hc Hname]%not_elem_of_cons. cbn [split].
  rewrite decide_False by done. by rewrite IH.
Qed.

Lemma split_app_slash path1 path2 :
  split (path1 ++ slash :: path2) = split path1 ++ split path2.
Proof.
  induction path1 as [| c path1 IH]; cbn [split app].
  - by rewrite decide_True.
  - case_decide; [by rewrite IH |].
    rewrite IH. pose proof (split_nonempty path1). by destruct (split path1).
Qed.

Lemma intercalate_cons seg segs :
  segs ≠ [] → intercalate (seg :: segs) = seg ++ slash :: intercalate segs.
Proof. by destruct segs. Qed.

Lemma intercalate_snoc_nonempty segs name :
  name ≠ [] → intercalate (segs ++ [name]) ≠ [].
Proof.
  intros Hname. induction segs as [| seg segs IH]; simpl; [done |].
  destruct (segs ++ [name]) eqn:Heq; [by destruct segs |].
  by destruct seg.
Qed.

Lemma intercalate_snoc_inj segs name1 name2 :
  intercalate (segs ++ [name1]) = intercalate (segs ++ [name2]) → name1 = name2.
Proof.
  induction segs as [| seg segs IH]; [done |].
  rewrite <- !app_comm_cons, !intercalate_cons by by destruct segs.
  intros H%app_inv_head. injection H as H. by apply IH.
Qed.

Lemma push_file_name allow kept name :
  file_name name → push_segment allow kept name = name :: kept.
Proof.
  intros (Hne & _ & Hd & Hdd). unfold push_segment.
  rewrite decide_False by (intros [? | ?]; done).
  by rewrite decide_False.
Qed.

Lemma file_name_ends name :
  file_name name → head name ≠ Some slash ∧ last name ≠ Some slash.
Proof.
  intros (_ & Hsl & _). split; intros H; apply Hsl.
  - destruct name; [done |]. injection H as ->. apply elem_of_cons. by left.
  - apply last_Some in H as [name' ->]. apply elem_of_app. right.
    apply elem_of_cons. by left.
Qed.

Lemma normalize_file_name name : file_name name → normalize name = name.
Proof.
  intros Hname. destruct (file_name_ends name Hname) as [Hhead Hlast].
  destruct Hname as (Hne & Hsl & Hd & Hdd).
  unfold normalize. destruct name as [| c name]; [done |].
  rewrite !bool_decide_eq_false_2 by done. simpl negb.
  unfold normalizeString. rewrite split_file_name by done. simpl foldl.
  rewrite push_file_name by done. done.
Qed.

Lemma normalize_snoc dir name :
  dir ≠ [] → file_name name →
  normalize (dir ++ slash :: name)
  = (if bool_decide (head dir = Some slash) then [slash] else [])
    ++ intercalate
         (reverse (foldl (push_segment (negb (bool_decide (head dir = Some slash))))
                     [] (split dir)) ++ [name]).
Proof.
  intros Hdir Hname. destruct (file_name_ends name Hname) as [_ Hlast].
  unfold normalize. destruct (dir ++ slash :: name) as [| c path] eqn:Hpath.
  { by destruct dir. }
  rewrite <- Hpath. clear c path Hpath.
  assert (Hhead : head (dir ++ slash :: name) = head dir) by by destruct dir.
  assert (Htail : last (dir ++ slash :: name) ≠ Some slash).
  { rewrite last_app_cons. destruct name as [| c name]; [by destruct Hname |].
    by rewrite last_cons_cons. }
  rewrite Hhead, (bool_decide_eq_false_2 _ Htail).
  unfold normalizeString.
  rewrite split_app_slash, (split_file_name name) by apply Hname.
  rewrite foldl_snoc, push_file_name, reverse_cons by done.
  pose proof (intercalate_snoc_nonempty
    (reverse (foldl (push_segment (negb (bool_decide (head dir = Some slash))))
                [] (split dir))) name (proj1 Hname)) as Hres.
  destruct (intercalate _) eqn:Hint; [done |].
  by destruct (bool_decide (head dir = Some slash)).
Qed.

(** Joining a directory with a file name puts the name, unchanged, after
    whatever the directory normalises to. *)
Lemma join_file_name dir :
  ∃ root kept, ∀ name,
    file_name name → join [dir; name] = root ++ intercalate (kept ++ [name]).
Proof.
  destruct dir as [| c dir].
  - exists [], []. intros name Hname. unfold join.
    rewrite filter_cons_False by (intros H; by apply H).
    rewrite filter_cons_True by apply Hname. rewrite filter_nil.
    simpl intercalate. by rewrite normalize_file_name.
  - eexists _, _. intros name Hname. unfold join.
    rewrite filter_cons_True by done.
    rewrite filter_cons_True by apply Hname. rewrite filter_nil.
    change (intercalate [c :: dir; name]) with ((c :: dir) ++ slash :: name).
    by rewrite normalize_snoc.
Qed.

Lemma join_file_name_inj dir name1 name2 :
  file_name name1 → file_name name2 →
  join [dir; name1] = join [dir; name2] → name1 = name2.
Proof.
  intros H1 H2. destruct (join_file_name dir) as (root & kept & Hjoin).
  rewrite !Hjoin by done. intros H%app_inv_head.
  by apply intercalate_snoc_inj in H.
Qed.

End path_facts.

Section temp_files.
Import RegExp JS Errors Effect FileSystemService.

Lemma temp_name_file_name now extension :
  Path.slash ∉ extension → Path.file_name (temp_name now extension).
Proof.
  intros Hext. unfold Path.file_name, temp_name. repeat split; try done.
  rewrite !not_elem_of_app. repeat split.
  - by vm_compute; intros H; repeat (apply elem_of_cons in H as [H | H]; [done |]);
      apply elem_of_nil in H.
  - apply Z_to_string_no_slash.
  - apply not_elem_of_cons. split; [by vm_compute | apply not_elem_of_nil].
  - done.
Qed.

Lemma temp_name_inj now1 now2 extension :
  temp_name now1 extension = temp_name now2 extension → now1 = now2.
Proof.
  unfold temp_name. intros H%app_inv_head.
  rewrite !app_assoc in H. apply app_inv_tail in H. apply app_inv_tail in H.
  by apply Z_to_string_inj.
Qed.

(** C2, on the code.  Two calls of [makeTempFile] that read the same
    millisecond from the clock return the same path: the name is made of
    [Date.now()] and the extension and of nothing else, so the uniqueness the
    clock reading is there for (and the test "should generate unique temp
    file paths" names) does not hold for two calls in quick succession. *)
Lemma makeTempFile_same_millisecond_same_path :
  let first := {| realpath_tmpdir := inr (code_units "/tmp"); now := 1700000000000 |} in
  let second := {| realpath_tmpdir := inr (code_units "/tmp"); now := 1700000000000 |} in
  ∃ path,
    makeTempFile first (code_units "wav") = Success path
    ∧ makeTempFile second (code_units "wav") = Success path
    ∧ path = code_units "/tmp/fluent-ai-subtitles-1700000000000.wav".
Proof. eexists. repeat split; vm_compute; reflexivity. Qed.

(** X28.  What the name does tell apart.  Two calls of [makeTempFile] with
    the same extension (one without a separator in it) and the same resolved
    temp directory both succeed, and their paths are distinct exactly when
    their readings of [Date.now()] differ: the name holds the time in
    milliseconds and nothing else that tells two calls apart. *)
Theorem makeTempFile_distinct_iff_clock
    (dir extension : jsstring) (now1 now2 : Z)
    (Hext : Path.slash ∉ extension) :
  ∃ path1 path2,
    makeTempFile {| realpath_tmpdir := inr dir; now := now1 |} extension
      = Success path1
    ∧ makeTempFile {| realpath_tmpdir := inr dir; now := now2 |} extension
      = Success path2
    ∧ (path1 ≠ path2 ↔ now1 ≠ now2).
Proof.
  eexists _, _. split; [reflexivity |]. split; [reflexivity |].
  split; intros Hne Heq; apply Hne.
  - by subst.
  - apply join_file_name_inj in Heq; [| by apply temp_name_file_name..].
    by apply temp_name_inj in Heq.
Qed.

Lemma makeTempFile_distinct_iff_clock_witness :
  ∃ path1 path2,
    makeTempFile {| realpath_tmpdir := inr (code_units "/tmp"); now := 1 |}
        (code_units "wav") = Success path1
    ∧ makeTempFile {| realpath_tmpdir := inr (code_units "/tmp"); now := 2 |}
        (code_units "wav") = Success path2
    ∧ (path1 ≠ path2 ↔ 1 ≠ 2).
Proof.
  apply (makeTempFile_distinct_iff_clock (code_units "/tmp") (code_units "wav") 1 2).
  vm_compute. intros H.
  repeat (apply elem_of_cons in H as [H | H]; [discriminate H |]).
  by apply elem_of_nil in H.
Defined.

(** C3, as stated, fails: the failure is tagged [YoutubeDownloadError]. *)
Lemma makeTempFile_failure_not_ResourceError :
  let sys := {| realpath_tmpdir := inl (SystemError (code_units "ENOENT"));
                now := 1700000000000 |} in
  makeTempFile sys (code_units "wav")
    = Failure (YoutubeDownloadError (SystemError (code_units "ENOENT")))
  ∧ ¬ ∃ e, makeTempFile sys (code_units "wav") = Failure e
           ∧ _tag e = "ResourceError"%string.
Proof.
  split; [reflexivity |]. intros (e & [= <-] & Htag). discriminate Htag.
Qed.

(** C3, as amended.  If the temp directory cannot be resolved,
    [makeTempFile] fails with a [YoutubeDownloadError] that carries the
    cause of the rejection; no other tag is possible, and [errors.ts] has no
    [ResourceError]. *)
Theorem makeTempFile_unresolved_tmpdir
    (cause : unknown) (now : Z) (extension : jsstring) :
  makeTempFile {| realpath_tmpdir := inl cause; now := now |} extension
    = Failure (YoutubeDownloadError cause)
  ∧ ∀ e, makeTempFile {| realpath_tmpdir := inl cause; now := now |} extension
         = Failure e → _tag e = "YoutubeDownloadError"%string.
Proof.
  split; [reflexivity |]. by intros e [= <-].
Qed.

End temp_files.

Section release.
Import RegExp JS Errors Effect FileSystemService.

Lemma unlink_settles disk path : (unlink disk path).1 ≠ Pending.
Proof.
  unfold unlink. destruct (faults disk !! path); [done |].
  by destruct (decide (path ∈ files disk)).
Qed.

(** C9.  For every disk and every path [cleanupFile] succeeds: a missing
    file (rejection with [ENOENT]) and any other refusal of the system are
    both turned into success and leave the disk as it was; and releasing the
    same path a second time succeeds as well. *)
Theorem cleanupFile_always_succeeds (disk : Disk) (path : jsstring) :
  (cleanupFile disk path).1 = Success ()
  ∧ (cleanupFile (cleanupFile disk path).2 path).1 = Success ()
  ∧ (path ∉ files disk → cleanupFile disk path = (Success (), disk))
  ∧ (is_Some (faults disk !! path) → cleanupFile disk path = (Success (), disk))
  ∧ (faults disk !! path = None → path ∉ files (cleanupFile disk path).2).
Proof.
  assert (Hok : ∀ d, (cleanupFile d path).1 = Success ()).
  { intros d. unfold cleanupFile. pose proof (unlink_settles d path) as Hs.
    destruct (unlink d path) as [[| [] | reason] d']; simpl in *; done. }
  split; [apply Hok |]. split; [apply Hok |].
  unfold cleanupFile, unlink. repeat split.
  - intros Hfile. destruct (faults disk !! path); [done |].
    by rewrite decide_False.
  - by intros [code ->].
  - intros ->. destruct (decide (path ∈ files disk)); simpl; [| done].
    intros [_ Hn]%elem_of_difference. apply Hn. by apply elem_of_singleton.
Qed.

End release.

(** ** Interruption *)

Section interruption.
Import Effect.
Context {Ev St : Type} (fires : Ev → bool) (pending : St → bool)
  (step : St → Ev → St).

(** Once the promise has settled the signal fires no more. *)
Lemma signal_fired_settled st events :
  pending st = false → signal_fired fires pending step st events = false.
Proof. intros Hst. destruct events; [done |]. simpl. by rewrite Hst. Qed.

(** Events that are not the signal and leave a pending promise pending. *)
Lemma signal_fired_skip st before events :
  Forall (λ ev, fires ev = false
                ∧ ∀ st', pending st' = true → pending (step st' ev) = true)
         before →
  pending st = true →
  signal_fired fires pending step st (before ++ events)
  = signal_fired fires pending step (foldl step st before) events
  ∧ pending (foldl step st before) = true.
Proof.
  intros Hbefore. revert st.
  induction Hbefore as [| ev before [Hf Hp] _ IH]; intros st Hst; [done |].
  simpl. rewrite Hst, Hf. simpl. apply IH. by apply Hp.
Qed.

(** The signal, once fired, has fired. *)
Lemma signal_fired_app_fired st events more :
  signal_fired fires pending step st events = true →
  signal_fired fires pending step st (events ++ more) = true.
Proof.
  revert st. induction events as [| ev events IH]; intros st; [done |].
  simpl. intros [-> [-> | H]%orb_true_iff]%andb_true_iff; [done |].
  simpl. rewrite (IH _ H). by rewrite orb_true_r.
Qed.

(** Events that arrive after the promise has settled do not fire it. *)
Lemma signal_fired_app_settled st events more :
  pending (foldl step st events) = false →
  signal_fired fires pending step st (events ++ more)
  = signal_fired fires pending step st events.
Proof.
  revert st. induction events as [| ev events IH]; intros st Hp.
  - simpl in *. by apply signal_fired_settled.
  - simpl in *. by rewrite IH.
Qed.

End interruption.

(** ** Audio acquisition *)

Section acquisition.
Import RegExp JS Errors Effect FileSystemService YouTubeDownloader.

Lemma executor_first_event kind ev rest :
  kind ≠ Other → on_event kind ev ≠ Pending →
  executor {| proc := kind; timeline := ev :: rest |} = on_event kind ev.
Proof.
  intros Hkind Hev. unfold executor. simpl.
  assert (Hstart : match kind with Other => Resolved () | _ => Pending end = Pending)
    by by destruct kind.
  rewrite Hstart. simpl.
  induction rest as [| ev' rest IH]; [done |].
  simpl. by destruct (on_event kind ev).
Qed.

Lemma interrupted_first_event kind ev rest :
  kind ≠ Other → on_event kind ev ≠ Pending →
  interrupted {| proc := kind; timeline := ev :: rest |} = is_abort ev.
Proof.
  intros Hkind Hev. unfold interrupted. cbn [proc timeline].
  assert (Hstart : match kind with Other => Resolved () | _ => Pending end = Pending)
    by by destruct kind.
  rewrite Hstart. cbn [signal_fired is_pending settle andb].
  rewrite signal_fired_settled; [by destruct (is_abort ev) |].
  by destruct (on_event kind ev).
Qed.

Lemma exit_error_inj code1 code2 :
  exit_error code1 = exit_error code2 → code1 = code2.
Proof.
  unfold exit_error. intros [= H]. by apply code_to_string_inj.
Qed.

(** C7.  With the temp directory resolved and the extraction process
    reporting its exit as the first event: exit code 0 makes [getAudio]
    succeed with the reserved path, and any other code makes it fail with a
    [YoutubeDownloadError] whose cause chain ends in the error with the message
    "yt-dlp exited with code <code>", from which the code can be read back
    (two different codes never give the same error).  The reserved path is
    left in the scope for release in both cases. *)
Theorem getAudio_by_exit_code
    (sys : Sys) (exec : list jsstring → Run) (url dir : jsstring)
    (code : option Z) (rest : list Event)
    (Hdir : realpath_tmpdir sys = inr dir)
    (Hrun : exec (exec_args url (Path.join [dir; temp_name (now sys) (code_units "wav")]))
            = {| proc := ChildProcess; timeline := OnClose code :: rest |}) :
  let file := Path.join [dir; temp_name (now sys) (code_units "wav")] in
  (code = Some 0 → outcome (getAudio sys exec url) = Success file)
  ∧ (code ≠ Some 0 →
     outcome (getAudio sys exec url)
     = Failure (YoutubeDownloadError (Tagged (YoutubeDownloadError
         (JsError (code_units "yt-dlp exited with code " ++ code_to_string code))))))
  ∧ (∀ code', exit_error code' = exit_error code → code' = code)
  ∧ to_release (getAudio sys exec url) = [file].
Proof.
  intros file. fold file in Hrun.
  assert (Hfile : makeTempFile sys (code_units "wav") = Success file).
  { unfold makeTempFile. by rewrite Hdir. }
  unfold getAudio. rewrite Hfile. cbn [outcome to_release flatMap]. rewrite Hrun.
  rewrite executor_first_event, interrupted_first_event;
    [| done | cbn [on_event]; by destruct (decide (code = Some 0))
     | done | cbn [on_event]; by destruct (decide (code = Some 0))].
  cbn [on_event is_abort tryPromise]. split; [| split; [| split]].
  - intros ->. by rewrite decide_True.
  - intros Hcode. by rewrite decide_False.
  - intros code'. apply exit_error_inj.
  - done.
Qed.

Lemma getAudio_by_exit_code_witness :
  (Some 1 = Some 0 →
   outcome (getAudio Scripted.tmp_sys (Scripted.exits_with (Some 1)) Scripted.video_url)
   = Success Scripted.audio_path)
  ∧ (Some 1 ≠ Some 0 →
     outcome (getAudio Scripted.tmp_sys (Scripted.exits_with (Some 1)) Scripted.video_url)
     = Failure (YoutubeDownloadError (Tagged (YoutubeDownloadError
         (JsError (code_units "yt-dlp exited with code " ++ code_to_string (Some 1)))))))
  ∧ (∀ code', exit_error code' = exit_error (Some 1) → code' = Some 1)
  ∧ to_release (getAudio Scripted.tmp_sys (Scripted.exits_with (Some 1)) Scripted.video_url)
    = [Scripted.audio_path].
Proof.
  apply (getAudio_by_exit_code Scripted.tmp_sys (Scripted.exits_with (Some 1))
           Scripted.video_url (code_units "/tmp") (Some 1) []);
    reflexivity.
Defined.

Example getAudio_exit_0 :
  outcome (getAudio Scripted.tmp_sys (Scripted.exits_with (Some 0)) Scripted.video_url)
  = Success Scripted.audio_path.
Proof. vm_compute. reflexivity. Qed.

Example getAudio_exit_1 :
  outcome (getAudio Scripted.tmp_sys (Scripted.exits_with (Some 1)) Scripted.video_url)
  = Failure (YoutubeDownloadError (Tagged (YoutubeDownloadError
      (JsError (code_units "yt-dlp exited with code 1"))))).
Proof. vm_compute. reflexivity. Qed.

End acquisition.

(** ** Submit and poll *)

Section polling.
Import RegExp JS Errors Model Effect MainAssemblyAI.
Implicit Types (status_of : nat → unknown + StatusData)
  (signal_aborted : nat → bool) (i k : nat) (elapsed : Z).

(** One turn of the loop. *)
Lemma poll_loop_unfold status_of signal_aborted i elapsed :
  poll_loop status_of signal_aborted i elapsed =
  if signal_aborted i then
    {| settled := Rejected (JsError (code_units "Transcription aborted"));
       requests := i; slept := elapsed |}
  else if Z_gt_dec elapsed MAX_POLL_TIME then
    {| settled := Rejected (JsError (code_units "Transcription timed out"));
       requests := i; slept := elapsed |}
  else match status_of i with
       | inl err => {| settled := Rejected err; requests := S i; slept := elapsed |}
       | inr statusData =>
           match branch statusData with
           | Completed =>
               {| settled := Resolved (token_array (to_subtitles statusData));
                  requests := S i; slept := elapsed |}
           | Errored =>
               {| settled := Rejected (JsError
                    (code_units "AssemblyAI transcription failed: "
                       ++ opt_to_string (error statusData)));
                  requests := S i; slept := elapsed |}
           | Waiting =>
               poll_loop status_of signal_aborted (S i) (elapsed + POLL_INTERVAL)
           end
       end.
Proof.
  funelim (poll_loop status_of signal_aborted i elapsed); clear Heqcall;
    repeat match goal with
           | H : _ = _ |- _ => rewrite H; clear H
           end; reflexivity.
Qed.

(** A status that is not terminal costs one interval and one more turn. *)
Lemma poll_loop_waiting status_of signal_aborted i elapsed :
  signal_aborted i = false → elapsed ≤ MAX_POLL_TIME →
  non_terminal (status_of i) →
  poll_loop status_of signal_aborted i elapsed
  = poll_loop status_of signal_aborted (S i) (elapsed + POLL_INTERVAL).
Proof.
  intros Hlive Hle Hwait. rewrite poll_loop_unfold, Hlive.
  destruct (Z_gt_dec elapsed MAX_POLL_TIME); [lia |].
  destruct (status_of i) as [err | statusData]; [done |].
  simpl in Hwait. by rewrite Hwait.
Qed.

Lemma poll_loop_skip status_of signal_aborted k i elapsed :
  (∀ j, (j < k)%nat → signal_aborted (i + j)%nat = false) →
  (∀ j, (j < k)%nat → non_terminal (status_of (i + j)%nat)) →
  (∀ j, (j < k)%nat → elapsed + POLL_INTERVAL * Z.of_nat j ≤ MAX_POLL_TIME) →
  poll_loop status_of signal_aborted i elapsed
  = poll_loop status_of signal_aborted (i + k) (elapsed + POLL_INTERVAL * Z.of_nat k).
Proof.
  revert i elapsed. induction k as [| k IH]; intros i elapsed Hlive Hwait Hle.
  - by rewrite Nat.add_0_r, Z.mul_0_r, Z.add_0_r.
  - rewrite poll_loop_waiting.
    + rewrite IH.
      * f_equal; lia.
      * intros j Hj. replace (S i + j)%nat with (i + S j)%nat by lia.
        apply Hlive. lia.
      * intros j Hj. replace (S i + j)%nat with (i + S j)%nat by lia.
        apply Hwait. lia.
      * intros j Hj. specialize (Hle (S j)). lia.
    + specialize (Hlive 0%nat). rewrite Nat.add_0_r in Hlive. apply Hlive. lia.
    + specialize (Hle 0%nat). lia.
    + specialize (Hwait 0%nat). rewrite Nat.add_0_r in Hwait. apply Hwait. lia.
Qed.

(** The same turns, for the signal. *)
Lemma poll_interrupted_turn status_of signal_aborted i elapsed :
  poll_interrupted status_of signal_aborted i elapsed =
  if signal_aborted i then true
  else if Z_gt_dec elapsed MAX_POLL_TIME then false
  else match status_of i with
       | inl err => false
       | inr statusData =>
           match branch statusData with
           | Completed => false
           | Errored => false
           | Waiting =>
               poll_interrupted status_of signal_aborted (S i)
                 (elapsed + POLL_INTERVAL)
           end
       end.
Proof.
  funelim (poll_interrupted status_of signal_aborted i elapsed); clear Heqcall;
    repeat match goal with
           | H : _ = _ |- _ => rewrite H; clear H
           end; reflexivity.
Qed.

Lemma poll_interrupted_skip status_of signal_aborted k i elapsed :
  (∀ j, (j < k)%nat → signal_aborted (i + j)%nat = false) →
  (∀ j, (j < k)%nat → non_terminal (status_of (i + j)%nat)) →
  (∀ j, (j < k)%nat → elapsed + POLL_INTERVAL * Z.of_nat j ≤ MAX_POLL_TIME) →
  poll_interrupted status_of signal_aborted i elapsed
  = poll_interrupted status_of signal_aborted (i + k)
      (elapsed + POLL_INTERVAL * Z.of_nat k).
Proof.
  revert i elapsed. induction k as [| k IH]; intros i elapsed Hlive Hwait Hle.
  - by rewrite Nat.add_0_r, Z.mul_0_r, Z.add_0_r.
  - rewrite poll_interrupted_turn.
    assert (Hlive0 : signal_aborted i = false).
    { specialize (Hlive 0%nat). rewrite Nat.add_0_r in Hlive. apply Hlive. lia. }
    assert (Hwait0 : non_terminal (status_of i)).
    { specialize (Hwait 0%nat). rewrite Nat.add_0_r in Hwait. apply Hwait. lia. }
    rewrite Hlive0. destruct (Z_gt_dec elapsed MAX_POLL_TIME) as [Hgt |].
    { specialize (Hle 0%nat). lia. }
    destruct (status_of i) as [err | statusData]; [done |].
    simpl in Hwait0. rewrite Hwait0. rewrite IH.
    + f_equal; lia.
    + intros j Hj. replace (S i + j)%nat with (i + S j)%nat by lia.
      apply Hlive. lia.
    + intros j Hj. replace (S i + j)%nat with (i + S j)%nat by lia.
      apply Hwait. lia.
    + intros j Hj. specialize (Hle (S j)). lia.
Qed.

(** The loop leaves through its signal check exactly when some iteration
    finds the signal aborted and every iteration before it found it clear,
    was within the ceiling and got an answer that is not terminal. *)
Lemma poll_interrupted_spec status_of signal_aborted i elapsed :
  poll_interrupted status_of signal_aborted i elapsed = true
  ↔ ∃ k, signal_aborted (i + k)%nat = true
       ∧ ∀ j, (j < k)%nat →
           signal_aborted (i + j)%nat = false
           ∧ non_terminal (status_of (i + j)%nat)
           ∧ elapsed + POLL_INTERVAL * Z.of_nat j ≤ MAX_POLL_TIME.
Proof.
  split.
  - funelim (poll_interrupted status_of signal_aborted i elapsed); clear Heqcall;
      try done.
    + intros _. exists 0%nat. rewrite Nat.add_0_r. split; [done |]. lia.
    + intros (k & Hk & Hbefore)%H. exists (S k).
      replace (i + S k)%nat with (S i + k)%nat by lia. split; [done |].
      intros [| j] Hj.
      * rewrite Nat.add_0_r, Z.mul_0_r, Z.add_0_r.
        split; [done |]. split; [| lia]. unfold non_terminal. by rewrite Heq0.
      * replace (i + S j)%nat with (S i + j)%nat by lia.
        destruct (Hbefore j) as (? & ? & ?); [lia |].
        split; [done |]. split; [done |]. lia.
  - intros (k & Hk & Hbefore).
    rewrite (poll_interrupted_skip _ _ k); try (intros j Hj; by apply Hbefore).
    by rewrite poll_interrupted_turn, Hk.
Qed.

(** When it does, the promise was rejected by that check. *)
Lemma poll_interrupted_settled status_of signal_aborted i elapsed :
  poll_interrupted status_of signal_aborted i elapsed = true →
  settled (poll_loop status_of signal_aborted i elapsed)
  = Rejected (JsError (code_units "Transcription aborted")).
Proof.
  intros (k & Hk & Hbefore)%poll_interrupted_spec.
  rewrite (poll_loop_skip _ _ k); try (intros j Hj; by apply Hbefore).
  by rewrite poll_loop_unfold, Hk.
Qed.

(** The call after [k] answers that are not terminal, none of them past the
    ceiling and with no abort. *)
Lemma transcribe_after_waits backend filePath upload_url transcriptId k :
  readFile backend filePath = inr () →
  upload backend = inr upload_url →
  submit backend upload_url = inr transcriptId →
  (∀ i, (i < k)%nat → aborted backend i = false) →
  (∀ i, (i < k)%nat → non_terminal (poll backend transcriptId i)) →
  (k ≤ 401)%nat →
  transcribe backend filePath
  = tryPromise
      (poll_interrupted (poll backend transcriptId) (aborted backend) k
         (POLL_INTERVAL * Z.of_nat k))
      (settled (poll_loop (poll backend transcriptId) (aborted backend) k
                  (POLL_INTERVAL * Z.of_nat k)))
      (λ error, TranscriptionError (as_Error error))
  ∧ requests (poll_loop (poll backend transcriptId) (aborted backend) 0 0)
    = requests (poll_loop (poll backend transcriptId) (aborted backend) k
                  (POLL_INTERVAL * Z.of_nat k)).
Proof.
  intros Hread Hupload Hsubmit Hlive Hwait Hk.
  assert (Hle : ∀ j, (j < k)%nat → 0 + POLL_INTERVAL * Z.of_nat j ≤ MAX_POLL_TIME).
  { intros j Hj. unfold MAX_POLL_TIME, POLL_INTERVAL. lia. }
  unfold transcribe, interrupted. rewrite Hread, Hupload, Hsubmit.
  by rewrite (poll_loop_skip _ _ k 0 0), (poll_interrupted_skip _ _ k 0 0).
Qed.

(** Whatever the service answers, the number of status requests is bounded
    by the time that is left. *)
Lemma poll_loop_requests_bound status_of signal_aborted i elapsed :
  (requests (poll_loop status_of signal_aborted i elapsed)
   ≤ i + Z.to_nat ((MAX_POLL_TIME + POLL_INTERVAL - elapsed) `div` POLL_INTERVAL))%nat.
Proof.
  funelim (poll_loop status_of signal_aborted i elapsed); clear Heqcall;
    cbn [requests]; try lia.
  all: assert (1 ≤ (MAX_POLL_TIME + POLL_INTERVAL - elapsed) `div` POLL_INTERVAL)
         by (apply Z.div_le_lower_bound; unfold MAX_POLL_TIME, POLL_INTERVAL in *; lia).
  1-3: lia.
  etrans; [apply H |].
  replace (MAX_POLL_TIME + POLL_INTERVAL - (elapsed + POLL_INTERVAL))
    with (MAX_POLL_TIME + POLL_INTERVAL - elapsed + (-1) * POLL_INTERVAL) by lia.
  rewrite Z.div_add by done. lia.
Qed.

Lemma poll_loop_resolved status_of signal_aborted i elapsed v :
  settled (poll_loop status_of signal_aborted i elapsed) = Resolved v →
  ∃ j statusData,
    status_of j = inr statusData ∧ v = token_array (to_subtitles statusData).
Proof.
  funelim (poll_loop status_of signal_aborted i elapsed); clear Heqcall;
    cbn [settled]; try done.
  - intros [= <-]. eauto.
  - auto.
Qed.

Lemma to_subtitles_lookup statusData ws j w :
  words statusData = Some ws → ws !! j = Some w →
  to_subtitles statusData !! j
  = Some {| id := j; value := Word.text w; startTimeMs := Word.start w;
            endTimeMs := Word.end_ w; score := Word.confidence w |}.
Proof.
  intros Hws Hw. unfold to_subtitles. rewrite Hws. simpl.
  by rewrite list_lookup_imap, Hw.
Qed.

Lemma branch_completed statusData :
  status statusData = code_units "completed" → branch statusData = Completed.
Proof. intros H. unfold branch. by rewrite decide_True. Qed.

(** C6.  Once the upload and the submission have gone through, if the
    first [k] status requests ([k] at most 400, the last turn the ceiling
    admits) are answered with statuses that are not terminal and the next
    one with ["completed"] and the words [ws], with no abort up to then,
    [transcribe] succeeds with exactly one token per word, in the order of
    the words, token [i] carrying [i] as its id and the text, start, end and
    confidence of word [i]. *)
Theorem transcribe_completed_maps_words
    (backend : Backend) (filePath upload_url transcriptId : jsstring)
    (k : nat) (statusData : StatusData) (ws : list Word.t)
    (Hread : readFile backend filePath = inr ())
    (Hupload : upload backend = inr upload_url)
    (Hsubmit : submit backend upload_url = inr transcriptId)
    (Hlive : ∀ i, (i ≤ k)%nat → aborted backend i = false)
    (Hwait : ∀ i, (i < k)%nat → non_terminal (poll backend transcriptId i))
    (Hk : (k ≤ 400)%nat)
    (Hpoll : poll backend transcriptId k = inr statusData)
    (Hstatus : status statusData = code_units "completed")
    (Hwords : words statusData = Some ws) :
  ∃ tokens,
    transcribe backend filePath = Success (token_array tokens)
    ∧ length tokens = length ws
    ∧ ∀ i w, ws !! i = Some w →
        tokens !! i
        = Some {| id := i; value := Word.text w; startTimeMs := Word.start w;
                  endTimeMs := Word.end_ w; score := Word.confidence w |}.
Proof.
  exists (to_subtitles statusData). split; [| split].
  - assert (Hlive' : ∀ i, (i < k)%nat → aborted backend i = false)
      by (intros i Hi; apply Hlive; lia).
    destruct (transcribe_after_waits backend filePath upload_url transcriptId k
                Hread Hupload Hsubmit Hlive' Hwait ltac:(lia)) as [-> _].
    rewrite poll_loop_unfold, poll_interrupted_turn, (Hlive k), Hpoll,
      (branch_completed _ Hstatus) by done.
    destruct (Z_gt_dec _ _) as [Hgt |]; [| done].
    unfold MAX_POLL_TIME, POLL_INTERVAL in Hgt. lia.
  - unfold to_subtitles. by rewrite Hwords, length_imap.
  - intros i w Hw. by apply (to_subtitles_lookup _ ws).
Qed.

Lemma transcribe_completed_maps_words_witness :
  ∃ tokens,
    transcribe (Scripted.always (Scripted.completed_with [Scripted.hi_word]))
      Scripted.audio_path = Success (token_array tokens)
    ∧ length tokens = length [Scripted.hi_word]
    ∧ ∀ i w, [Scripted.hi_word] !! i = Some w →
        tokens !! i
        = Some {| id := i; value := Word.text w; startTimeMs := Word.start w;
                  endTimeMs := Word.end_ w; score := Word.confidence w |}.
Proof.
  apply (transcribe_completed_maps_words
           (Scripted.always (Scripted.completed_with [Scripted.hi_word]))
           Scripted.audio_path (code_units "https://cdn.example/upload/1")
           (code_units "job-1") 0 (Scripted.completed_with [Scripted.hi_word])
           [Scripted.hi_word]);
    try reflexivity.
  - intros i Hi. lia.
  - lia.
Defined.

(** The example of the specification. *)
Example transcribe_hi :
  transcribe (Scripted.always (Scripted.completed_with [Scripted.hi_word]))
    Scripted.audio_path
  = Success (token_array
      [{| id := 0; value := code_units "hi"; startTimeMs := of_Z 100;
          endTimeMs := of_Z 400; score := ratio 9 10 |}]).
Proof. vm_compute. reflexivity. Qed.

(** C8.  Whatever the service answers and whenever the signal fires, the
    loop ends after at most 401 status requests.  When every answer is a
    status that is not terminal and the call is never aborted, each turn adds
    the 3-second interval to [elapsed]; after 401 turns [elapsed] stands at
    1,203,000 ms, above the ceiling of 1,200,000 ms, and [transcribe] fails
    with the error "Transcription timed out" wrapped in a
    [TranscriptionError]. *)
Theorem transcribe_poll_terminates
    (backend : Backend) (filePath upload_url transcriptId : jsstring)
    (Hread : readFile backend filePath = inr ())
    (Hupload : upload backend = inr upload_url)
    (Hsubmit : submit backend upload_url = inr transcriptId)
    (Hlive : ∀ i, aborted backend i = false)
    (Hwait : ∀ i, non_terminal (poll backend transcriptId i)) :
  (∀ status_of signal_aborted,
     (requests (poll_loop status_of signal_aborted 0 0) ≤ 401)%nat)
  ∧ poll_loop (poll backend transcriptId) (aborted backend) 0 0
    = {| settled := Rejected (JsError (code_units "Transcription timed out"));
         requests := 401;
         slept := 401 * POLL_INTERVAL |}
  ∧ 401 * POLL_INTERVAL > MAX_POLL_TIME
  ∧ transcribe backend filePath
    = Failure (TranscriptionError (JsError (code_units "Transcription timed out"))).
Proof.
  assert (Hloop : poll_loop (poll backend transcriptId) (aborted backend) 0 0
    = {| settled := Rejected (JsError (code_units "Transcription timed out"));
         requests := 401;
         slept := 401 * POLL_INTERVAL |}).
  { rewrite (poll_loop_skip _ _ 401 0 0).
    - rewrite poll_loop_unfold, Hlive.
      destruct (Z_gt_dec _ _) as [| Hle]; [done |].
      unfold MAX_POLL_TIME, POLL_INTERVAL in Hle. lia.
    - intros j _. apply Hlive.
    - intros j _. apply Hwait.
    - intros j Hj. unfold MAX_POLL_TIME, POLL_INTERVAL. lia. }
  split; [| split; [done | split]].
  - intros status_of signal_aborted.
    etrans; [apply poll_loop_requests_bound |]. by vm_compute.
  - by vm_compute.
  - destruct (transcribe_after_waits backend filePath upload_url transcriptId 401
                Hread Hupload Hsubmit ltac:(auto) ltac:(auto) ltac:(lia)) as [-> _].
    rewrite poll_loop_unfold, poll_interrupted_turn, Hlive.
    destruct (Z_gt_dec _ _) as [| Hle]; [done |].
    unfold MAX_POLL_TIME, POLL_INTERVAL in Hle. lia.
Qed.

Lemma transcribe_poll_terminates_witness :
  (∀ status_of signal_aborted,
     (requests (poll_loop status_of signal_aborted 0 0) ≤ 401)%nat)
  ∧ poll_loop (poll (Scripted.always Scripted.queued) (code_units "job-1"))
      (aborted (Scripted.always Scripted.queued)) 0 0
    = {| settled := Rejected (JsError (code_units "Transcription timed out"));
         requests := 401;
         slept := 401 * POLL_INTERVAL |}
  ∧ 401 * POLL_INTERVAL > MAX_POLL_TIME
  ∧ transcribe (Scripted.always Scripted.queued) Scripted.audio_path
    = Failure (TranscriptionError (JsError (code_units "Transcription timed out"))).
Proof.
  apply (transcribe_poll_terminates (Scripted.always Scripted.queued)
           Scripted.audio_path (code_units "https://cdn.example/upload/1")
           (code_units "job-1"));
    intros; reflexivity.
Defined.

End polling.

(** ** Tokens *)

Section tokens.
Import RegExp JS Errors Model Effect SpeechSDK.

Lemma Fin_canon (x y : Qc) : (x == y)%Q → Fin x = Fin y.
Proof. intros H. f_equal. by apply Qc_is_canon. Qed.

Lemma ticks_nonzero : Q2Qc (inject_Z 10000) ≠ 0%Qc.
Proof. intros H%(f_equal this). vm_compute in H. discriminate H. Qed.

(** Dividing by the ticks per millisecond keeps the order of two instants. *)
Lemma to_ms_ordered (o d : Qc) :
  (0 ≤ d)%Qc →
  num_le (num_div (Fin o) (of_Z 10000))
         (num_div (num_add (Fin o) (Fin d)) (of_Z 10000)).
Proof.
  intros Hd. unfold num_div, num_add, of_Z.
  destruct (decide _) as [H0 | _]; [by destruct ticks_nonzero |].
  simpl. unfold Qcdiv. apply Qcmult_le_compat_r.
  - rewrite <- (Qcplus_0_r o) at 1. by apply Qcplus_le_mono_l.
  - by vm_compute.
Qed.

(** *** Continuous recognition *)

Lemma recognized_sound results e :
  Forall token_sound results → Main.sound_event (Main.Recognized e) →
  Forall token_sound (Main.recognized results e).
Proof.
  intros Hres Hev. unfold Main.recognized.
  destruct e as [[[r |]] |]; try done.
  destruct (decide (reason r = RecognizedSpeech)) as [Hreason | _]; [| done].
  apply Forall_app. split; [done |]. apply Forall_singleton.
  destruct (Hev Hreason) as ((o & d & Ho & Hd & Hpos) & Hlo & Hhi).
  split; [| by split].
  unfold ordered_times, Main.ticks_per_ms. cbn [startTimeMs endTimeMs Number].
  rewrite Ho, Hd. by apply to_ms_ordered.
Qed.

Lemma run_sound events st :
  Forall token_sound (Main.results st) → Forall Main.sound_event events →
  Forall token_sound (Main.results (foldl Main.on_event st events)).
Proof.
  revert st. induction events as [| ev events IH]; intros st Hst Hevs; [done |].
  apply Forall_cons in Hevs as [Hev Hevs]. simpl. apply IH; [| done].
  destruct ev; simpl; try done. by apply recognized_sound.
Qed.

(** A successful call yields the array as the events have left it. *)
Lemma transcribe_continuous_success sdk filePath v :
  Main.transcribe sdk filePath = Success v →
  Main.setup (sdk filePath) = None
  ∧ Main.interrupted (sdk filePath) = false
  ∧ Main.promise (Main.run (Main.events (sdk filePath))) = Resolved Main.ResultsArray
  ∧ v = token_array (Main.results (Main.run (Main.events (sdk filePath)))).
Proof.
  unfold Main.transcribe, tryPromise, Main.read.
  destruct (Main.interrupted (sdk filePath)); [done |].
  destruct (Main.setup (sdk filePath)); [done |].
  destruct (Main.promise _) as [| [] |]; try done. by intros [= <-].
Qed.

Lemma transcribe_continuous_sound sdk filePath v :
  Forall Main.sound_event (Main.events (sdk filePath)) →
  Main.transcribe sdk filePath = Success v →
  ∃ tokens, v = token_array tokens ∧ Forall token_sound tokens.
Proof.
  intros Hevs (_ & _ & _ & ->)%transcribe_continuous_success.
  eexists. split; [done |]. by apply run_sound.
Qed.

(** *** Single-shot recognition *)

Lemma subtitles_once_sound result :
  MainOnce.sound_times result → Forall token_sound (MainOnce.subtitles result).
Proof.
  intros (o & d & Ho & Hd & Hpos). apply Forall_singleton. split.
  - unfold ordered_times. cbn [startTimeMs endTimeMs].
    rewrite Ho, Hd. by apply to_ms_ordered.
  - split; by vm_compute.
Qed.

(** *** Submit and poll *)

Lemma to_subtitles_sound statusData :
  Forall MainAssemblyAI.sound_word (default [] (MainAssemblyAI.words statusData)) →
  Forall token_sound (MainAssemblyAI.to_subtitles statusData).
Proof.
  intros Hws. unfold MainAssemblyAI.to_subtitles. apply Forall_lookup.
  intros i t. rewrite list_lookup_imap.
  destruct (_ !! i) as [w |] eqn:Hw; [| done]. intros [= <-].
  by eapply Forall_lookup in Hws as (Ho & Hlo & Hhi).
Qed.

Lemma transcribe_assemblyai_sound backend filePath v :
  (∀ transcriptId i statusData,
     MainAssemblyAI.poll backend transcriptId i = inr statusData →
     Forall MainAssemblyAI.sound_word
       (default [] (MainAssemblyAI.words statusData))) →
  MainAssemblyAI.transcribe backend filePath = Success v →
  ∃ tokens, v = token_array tokens ∧ Forall token_sound tokens.
Proof.
  intros Hws. unfold MainAssemblyAI.transcribe.
  destruct (MainAssemblyAI.interrupted _ _); [done |]. cbn [tryPromise].
  destruct (MainAssemblyAI.readFile _ _); [done |].
  destruct (MainAssemblyAI.upload _) as [| upload_url]; [done |].
  destruct (MainAssemblyAI.submit _ _) as [| transcriptId]; [done |].
  destruct (MainAssemblyAI.settled _) eqn:Hp; try done. intros [= ->].
  apply poll_loop_resolved in Hp as (j & statusData & Hj & ->).
  eexists. split; [done |]. apply to_subtitles_sound. by eapply Hws.
Qed.

(** C5, as stated, fails: a word the service reports with its end before
    its start and a confidence of 1.5 becomes a token with those numbers. *)
Lemma backwards_word_breaks_invariants :
  let t := {| id := 0; value := code_units "hi"; startTimeMs := of_Z 400;
              endTimeMs := of_Z 100; score := ratio 3 2 |} in
  MainAssemblyAI.transcribe
    (Scripted.always (Scripted.completed_with [Scripted.backwards_word]))
    Scripted.audio_path
  = Success (token_array [t])
  ∧ ¬ ordered_times t
  ∧ ¬ score_in_unit_interval t.
Proof.
  split; [vm_compute; reflexivity |].
  split; [intros H | intros [_ H]]; vm_compute in H; by apply H.
Qed.

(** C5, as amended.  The tokens of a result satisfy
    [endTimeMs >= startTimeMs] and [0 <= score <= 1] whenever the numbers
    the backend reports do: under continuous recognition when every
    recognized segment has a finite offset, a finite non-negative duration
    and a confidence that converts to a number in [0, 1]; under submit and
    poll when every reported word has [end >= start] and a confidence in
    [0, 1]; in the single-shot variant when the offset is finite and the
    duration finite and non-negative.  The program passes the reported
    numbers on without checking them. *)
Theorem tokens_sound_when_backend_sound
    (sdk : jsstring → Main.Session) (backend : MainAssemblyAI.Backend)
    (filePath : jsstring)
    (Hevents : Forall Main.sound_event (Main.events (sdk filePath)))
    (Hwords : ∀ transcriptId i statusData,
       MainAssemblyAI.poll backend transcriptId i = inr statusData →
       Forall MainAssemblyAI.sound_word
         (default [] (MainAssemblyAI.words statusData))) :
  (∀ v, Main.transcribe sdk filePath = Success v →
        ∃ tokens, v = token_array tokens
          ∧ Forall (λ t, ordered_times t ∧ score_in_unit_interval t) tokens)
  ∧ (∀ v, MainAssemblyAI.transcribe backend filePath = Success v →
          ∃ tokens, v = token_array tokens
            ∧ Forall (λ t, ordered_times t ∧ score_in_unit_interval t) tokens)
  ∧ (∀ result, MainOnce.sound_times result →
       Forall (λ t, ordered_times t ∧ score_in_unit_interval t)
         (MainOnce.subtitles result)).
Proof.
  split; [| split].
  - intros v. by apply transcribe_continuous_sound.
  - intros v. by apply transcribe_assemblyai_sound.
  - apply subtitles_once_sound.
Qed.

Lemma hello_result_sound : Main.sound_result Scripted.hello_result.
Proof.
  split; [| split; by vm_compute].
  eexists _, _. split; [reflexivity |]. split; [reflexivity | by vm_compute].
Qed.

Lemma tokens_sound_when_backend_sound_witness :
  (∀ v, Main.transcribe (Scripted.session_of Scripted.hello_result)
          Scripted.audio_path = Success v →
        ∃ tokens, v = token_array tokens
          ∧ Forall (λ t, ordered_times t ∧ score_in_unit_interval t) tokens)
  ∧ (∀ v, MainAssemblyAI.transcribe
            (Scripted.always (Scripted.completed_with [Scripted.hi_word]))
            Scripted.audio_path = Success v →
          ∃ tokens, v = token_array tokens
            ∧ Forall (λ t, ordered_times t ∧ score_in_unit_interval t) tokens)
  ∧ (∀ result, MainOnce.sound_times result →
       Forall (λ t, ordered_times t ∧ score_in_unit_interval t)
         (MainOnce.subtitles result)).
Proof.
  apply (tokens_sound_when_backend_sound
           (Scripted.session_of Scripted.hello_result)
           (Scripted.always (Scripted.completed_with [Scripted.hi_word]))
           Scripted.audio_path).
  - constructor; [intros _; apply hello_result_sound |].
    constructor; [exact I | constructor].
  - intros transcriptId i statusData [= <-].
    constructor; [| constructor]. repeat split; by vm_compute.
Defined.

(** The example of the specification for the streaming strategy. *)
Example transcribe_hello :
  ∃ t, Main.transcribe (Scripted.session_of Scripted.hello_result)
         Scripted.audio_path = Success (token_array [t])
       ∧ id t = 0%nat ∧ value t = code_units "hello"
       ∧ startTimeMs t = of_Z 0 ∧ endTimeMs t = of_Z 5
       ∧ score t = ratio 1 2.
Proof.
  eexists. split; [reflexivity |]. cbn [id value startTimeMs endTimeMs score].
  repeat split; apply Fin_canon; by vm_compute.
Qed.

(** *** The shape of the single-shot result *)

(** Every event of the single-shot variant settles the promise, so the
    first one decides the call. *)
Lemma once_first_event sdk filePath ev rest :
  MainOnce.setup (sdk filePath) = None →
  MainOnce.events (sdk filePath) = ev :: rest →
  MainOnce.transcribe sdk filePath
  = tryPromise (MainOnce.is_abort ev) (MainOnce.on_event ev)
      (λ error, TranscriptionError (as_Error error)).
Proof.
  intros Hsetup Hevents. unfold MainOnce.transcribe, MainOnce.interrupted.
  rewrite Hsetup, Hevents. cbn [foldl settle signal_fired is_pending andb].
  assert (Hp : MainOnce.on_event ev ≠ Pending).
  { destruct ev; cbn [MainOnce.on_event]; try done. by destruct (decide _). }
  rewrite signal_fired_settled by (by destruct (MainOnce.on_event ev)).
  rewrite orb_false_r. f_equal.
  revert Hp. generalize (MainOnce.on_event ev). clear Hevents. intros p Hp.
  induction rest as [| ev' rest IH]; [done |]. cbn [foldl].
  destruct p; [done | exact IH | exact IH].
Qed.

Lemma once_first_result sdk filePath result rest :
  MainOnce.setup (sdk filePath) = None →
  MainOnce.events (sdk filePath) = MainOnce.OnResult result :: rest →
  reason result = RecognizedSpeech →
  MainOnce.transcribe sdk filePath
  = Success (JArray [token_array (MainOnce.subtitles result)]).
Proof.
  intros Hsetup Hevents Hreason.
  rewrite (once_first_event _ _ _ rest Hsetup Hevents).
  cbn [MainOnce.is_abort MainOnce.on_event tryPromise]. by rewrite decide_True.
Qed.

(** C4, on the code.  A successful single-shot recognition of "hello"
    (offset 0, 50,000 ticks) resolves with an array that holds one array
    that holds the token: the token has id 0 and the placeholder score 0.8,
    but the result is not a sequence of tokens; the token array alone would
    be one. *)
Theorem recognizeOnce_resolves_nested :
  ∃ t, MainOnce.transcribe Scripted.hello_once Scripted.audio_path
         = Success (JArray [JArray [JToken t]])
       ∧ id t = 0%nat ∧ value t = code_units "hello"
       ∧ startTimeMs t = of_Z 0 ∧ endTimeMs t = of_Z 5
       ∧ score t = ratio 4 5
       ∧ as_SubtitleResult (JArray [JArray [JToken t]]) = None
       ∧ as_SubtitleResult (JArray [JToken t]) = Some [t].
Proof.
  eexists. split.
  { rewrite (once_first_result _ _ Scripted.hello_result []); reflexivity. }
  cbn [id value startTimeMs endTimeMs score].
  repeat split; try (apply Fin_canon; by vm_compute).
Qed.

(** *** The confidence fallback *)

Lemma confidence_of_falsy r :
  truthy (Main.confidence_property r) = false →
  truthy (confidence r) = false →
  Main.confidence_of r = VNumber Main.fallback_confidence.
Proof.
  intros Hprop Hconf. unfold Main.confidence_of, or_else.
  by rewrite Hprop, Hconf.
Qed.

Lemma confidence_of_truthy_source r :
  truthy (Main.confidence_property r) = true ∨ truthy (confidence r) = true
  ∨ Main.confidence_of r = VNumber Main.fallback_confidence.
Proof.
  destruct (truthy (Main.confidence_property r)) eqn:Hprop; [by left |].
  destruct (truthy (confidence r)) eqn:Hconf; [by right; left |].
  right; right. by apply confidence_of_falsy.
Qed.

(** C10, as stated, fails in its last part: a confidence property holding
    the text ["0"] is truthy, is converted by [Number], and the token gets
    the score 0. *)
Lemma zero_text_confidence_scores_zero :
  ∃ t, Main.transcribe (Scripted.session_of Scripted.zero_text_result)
         Scripted.audio_path = Success (token_array [t])
       ∧ Main.confidence_property Scripted.zero_text_result
         = VString (code_units "0")
       ∧ score t = of_Z 0.
Proof.
  eexists. split; [reflexivity |]. split; [by vm_compute |].
  cbn [score]. apply Fin_canon. by vm_compute.
Qed.

(** C10, as amended.  For a recognized segment, when the confidence
    property and the [confidence] field are both absent or falsy
    ([undefined], [null], [false], the number 0, [NaN], the empty text), the
    token appended gets the fallback score 0.5; in particular a confidence
    reported as the number 0 is replaced by 0.5.  A token of this strategy
    has score 0 only if one of the two sources is truthy (for instance the
    text ["0"]). *)
Theorem score_falls_back_when_confidence_falsy
    (results : list SubtitleToken) (r : SpeechRecognitionResult)
    (Hreason : reason r = RecognizedSpeech) :
  ∃ t, Main.recognized results (Some {| result := Some r |}) = results ++ [t]
    ∧ id t = length results
    ∧ (truthy (Main.confidence_property r) = false →
       truthy (confidence r) = false →
       score t = ratio 1 2)
    ∧ (Main.confidence_property r = VUndefined →
       confidence r = VNumber (of_Z 0) →
       score t = ratio 1 2)
    ∧ (score t = of_Z 0 →
       truthy (Main.confidence_property r) = true ∨ truthy (confidence r) = true).
Proof.
  eexists. unfold Main.recognized. rewrite decide_True by done.
  split; [reflexivity |]. cbn [id score]. split; [done |].
  split; [| split].
  - intros Hprop Hconf. by rewrite confidence_of_falsy.
  - intros Hprop Hconf. rewrite confidence_of_falsy; [done | by rewrite Hprop |].
    rewrite Hconf. by vm_compute.
  - intros Hzero.
    destruct (confidence_of_truthy_source r) as [H | [H | H]]; [by left | by right |].
    rewrite H in Hzero. cbn [Number] in Hzero.
    apply (f_equal (λ n, match n with Fin q => this q | NaN => 0%Q end)) in Hzero.
    vm_compute in Hzero. discriminate Hzero.
Qed.

Lemma score_falls_back_when_confidence_falsy_witness :
  ∃ t, Main.recognized [] (Some {| result := Some Scripted.zero_number_result |})
       = [] ++ [t]
    ∧ id t = length (@nil SubtitleToken)
    ∧ (truthy (Main.confidence_property Scripted.zero_number_result) = false →
       truthy (confidence Scripted.zero_number_result) = false →
       score t = ratio 1 2)
    ∧ (Main.confidence_property Scripted.zero_number_result = VUndefined →
       confidence Scripted.zero_number_result = VNumber (of_Z 0) →
       score t = ratio 1 2)
    ∧ (score t = of_Z 0 →
       truthy (Main.confidence_property Scripted.zero_number_result) = true
       ∨ truthy (confidence Scripted.zero_number_result) = true).
Proof.
  apply (score_falls_back_when_confidence_falsy [] Scripted.zero_number_result).
  reflexivity.
Defined.

Example zero_number_confidence_scores_half :
  ∃ t, Main.transcribe (Scripted.session_of Scripted.zero_number_result)
         Scripted.audio_path = Success (token_array [t])
       ∧ score t = ratio 1 2.
Proof. eexists. split; [reflexivity |]. cbn [score]. by vm_compute. Qed.

End tokens.

(** * Further properties of the code *)

(** ** The validators *)

Section validators_more.
Import RegExp Errors Effect Pipeline Observations.

(** X1.  The validator of [src/main.ts] accepts an accepted URL followed by
    any text without line terminators: what comes after the video id is not
    inspected. *)
Theorem isValidYouTubeUrl_suffix_closed (url suffix : jsstring)
    (Hurl : Main.isValidYouTubeUrl url = true)
    (Hsuffix : Forall (λ c, line_terminator c = false) suffix) :
  Main.isValidYouTubeUrl (url ++ suffix) = true.
Proof.
  apply isValidYouTubeUrl_grammar.
  apply isValidYouTubeUrl_grammar in Hurl
    as (scheme & www & host & id & rest & -> & Hs & Hw & Hh & Hlen & Hid & Hrest).
  exists scheme, www, host, id, (rest ++ suffix).
  rewrite <- !app_assoc. repeat split; try done.
  apply Forall_app. split; [done |].
  eapply Forall_impl; [exact Hsuffix |]. intros c Hc. apply dot_symbol.
  unfold dot. by rewrite Hc.
Qed.

Lemma isValidYouTubeUrl_suffix_closed_witness :
  Main.isValidYouTubeUrl (Scripted.video_url ++ code_units "&t=30s") = true.
Proof.
  apply (isValidYouTubeUrl_suffix_closed Scripted.video_url (code_units "&t=30s")).
  - vm_compute. reflexivity.
  - repeat constructor.
Defined.

Lemma Matches_classes_within (P : char → Prop) r s :
  classes_within P r → Matches r s → Forall P s.
Proof.
  intros Hr Hm. induction Hm; simpl in Hr; try done.
  - constructor; [by apply Hr | constructor].
  - apply Forall_app. split; [apply IHHm1 | apply IHHm2]; apply Hr.
  - apply IHHm, Hr.
  - apply IHHm, Hr.
  - apply Forall_app. split; [by apply IHHm1 | by apply IHHm2].
Qed.

Lemma id_char_not_space c : id_char c = true → white_space c = false.
Proof.
  unfold id_char, white_space, in_range.
  rewrite !orb_true_iff, !andb_true_iff, !N.leb_le, !N.eqb_eq.
  rewrite !orb_false_iff, !andb_false_iff, !N.leb_gt, !N.eqb_neq. lia.
Qed.

Lemma classes_within_Lit (P : char → Prop) c : P c → classes_within P (Lit c).
Proof. intros Hc c' Heq. apply N.eqb_eq in Heq. by subst. Qed.

Lemma classes_within_Str (P : char → Prop) w :
  Forall P w → classes_within P (Str w).
Proof.
  induction 1 as [| c w Hc _ IH]; [exact I |].
  split; [by apply classes_within_Lit | done].
Qed.

Lemma classes_within_Rep (P : char → Prop) n r :
  classes_within P r → classes_within P (Rep n r).
Proof. intros Hr. induction n as [| n IH]; [exact I | by split]. Qed.

Lemma assemblyai_classes_space_free :
  classes_within (λ c, white_space c = false) MainAssemblyAI.youtubeRegex.
Proof.
  unfold MainAssemblyAI.youtubeRegex, Opt, Plus. cbn [classes_within].
  repeat match goal with |- _ ∧ _ => split end; try exact I;
    try (apply classes_within_Str; by repeat constructor);
    try (by apply classes_within_Lit);
    try apply classes_within_Rep; cbn [classes_within]; intros c Hc.
  all: try (by apply negb_true_iff in Hc).
  - unfold not_slash_space in Hc. apply negb_true_iff in Hc.
    apply orb_false_iff in Hc as [_ Hc]. done.
  - unfold not_slash_space in Hc. apply negb_true_iff in Hc.
    apply orb_false_iff in Hc as [_ Hc]. done.
  - unfold query_sep in Hc.
    apply orb_true_iff in Hc as [Hc | Hc]; apply N.eqb_eq in Hc as ->; reflexivity.
  - by apply id_char_not_space.
Qed.

(** X2.  Whatever the validator of the AssemblyAI variant accepts contains
    no white space and ends with the video id: the last 11 code units are
    letters, digits, [_] or [-], and nothing follows them. *)
Theorem assemblyai_accepted_shape (url : jsstring)
    (Hurl : MainAssemblyAI.isValidYouTubeUrl url = true) :
  space_free url
  ∧ ∃ before id,
      url = before ++ id ∧ length id = 11%nat ∧ Forall Spec.id_symbol id.
Proof.
  apply matches_Matches in Hurl. split.
  - by apply (Matches_classes_within _ _ _ assemblyai_classes_space_free).
  - unfold MainAssemblyAI.youtubeRegex in Hurl.
    apply Matches_Cat_iff in Hurl as (s1 & t1 & -> & _ & H).
    apply Matches_Cat_iff in H as (s2 & t2 & -> & _ & H).
    apply Matches_Cat_iff in H as (s3 & id & -> & _ & H).
    apply Matches_Rep_Cls_iff in H as [Hlen Hid].
    exists (s1 ++ s2 ++ s3), id. rewrite <- !app_assoc.
    split; [done |]. split; [done |].
    by apply (Forall_class _ _ _ id_char_symbol).
Qed.

Lemma assemblyai_accepted_shape_witness :
  space_free Scripted.video_url
  ∧ ∃ before id,
      Scripted.video_url = before ++ id ∧ length id = 11%nat
      ∧ Forall Spec.id_symbol id.
Proof.
  apply (assemblyai_accepted_shape Scripted.video_url).
  vm_compute. reflexivity.
Defined.

Lemma assemblyai_matches_id_url (scheme www host id : jsstring) :
  scheme ∈ [[]; code_units "http://"; code_units "https://"] →
  www ∈ [[]; code_units "www."] →
  host ∈ [code_units "youtu.be/"; code_units "youtube.com/watch?v=";
          code_units "youtube.com/embed/"; code_units "youtube.com/v/";
          code_units "youtube.com/e/"] →
  length id = 11%nat → Forall Spec.id_symbol id →
  MainAssemblyAI.isValidYouTubeUrl (scheme ++ www ++ host ++ id) = true.
Proof.
  intros Hscheme Hwww Hhost Hlen Hid.
  apply matches_Matches. unfold MainAssemblyAI.youtubeRegex.
  constructor.
  { repeat (apply elem_of_cons in Hscheme as [-> | Hscheme]);
      [apply matches_Matches; reflexivity.. | by apply elem_of_nil in Hscheme]. }
  constructor.
  { repeat (apply elem_of_cons in Hwww as [-> | Hwww]);
      [apply matches_Matches; reflexivity.. | by apply elem_of_nil in Hwww]. }
  constructor.
  { repeat (apply elem_of_cons in Hhost as [-> | Hhost]);
      [apply matches_Matches; reflexivity.. | by apply elem_of_nil in Hhost]. }
  apply Matches_Rep_Cls_iff. split; [done |].
  by apply (Forall_class _ _ _ id_char_symbol).
Qed.

(** X3.  The validator of the AssemblyAI variant accepts every address made
    of an optional scheme ([http://] or [https://]), an optional [www.], one
    of the five path forms [youtu.be/], [youtube.com/watch?v=],
    [youtube.com/embed/], [youtube.com/v/], [youtube.com/e/], and an
    11-character video id with nothing after it. *)
Theorem assemblyai_accepts_id_urls (scheme www host id : jsstring)
    (Hscheme : scheme ∈ [[]; code_units "http://"; code_units "https://"])
    (Hwww : www ∈ [[]; code_units "www."])
    (Hhost : host ∈ [code_units "youtu.be/"; code_units "youtube.com/watch?v=";
                     code_units "youtube.com/embed/"; code_units "youtube.com/v/";
                     code_units "youtube.com/e/"])
    (Hlen : length id = 11%nat)
    (Hid : Forall Spec.id_symbol id) :
  validateUrl MainAssemblyAI.isValidYouTubeUrl (scheme ++ www ++ host ++ id)
  = Success (scheme ++ www ++ host ++ id).
Proof.
  unfold validateUrl. by rewrite assemblyai_matches_id_url.
Qed.

Lemma assemblyai_accepts_id_urls_witness :
  validateUrl MainAssemblyAI.isValidYouTubeUrl
    (code_units "https://" ++ code_units "www." ++ code_units "youtube.com/embed/"
       ++ code_units "dQw4w9WgXcQ")
  = Success (code_units "https://" ++ code_units "www."
               ++ code_units "youtube.com/embed/" ++ code_units "dQw4w9WgXcQ").
Proof.
  apply (assemblyai_accepts_id_urls (code_units "https://") (code_units "www.")
           (code_units "youtube.com/embed/") (code_units "dQw4w9WgXcQ")).
  - apply list_elem_of_further, list_elem_of_further, list_elem_of_here.
  - apply list_elem_of_further, list_elem_of_here.
  - apply list_elem_of_further, list_elem_of_further, list_elem_of_here.
  - reflexivity.
  - apply (Forall_class _ _ _ id_char_symbol). repeat constructor.
Defined.

(** X4.  The three variants agree on plain video addresses: a URL made of
    [http://] or [https://], an optional [www.], [youtube.com/watch?v=] or
    [youtu.be/] and an 11-character video id, with nothing after it, passes
    validation in each of them. *)
Theorem validators_agree_on_plain_urls (scheme www host id : jsstring)
    (Hscheme : scheme ∈ [code_units "http://"; code_units "https://"])
    (Hwww : www ∈ [[]; code_units "www."])
    (Hhost : host ∈ [code_units "youtube.com/watch?v="; code_units "youtu.be/"])
    (Hlen : length id = 11%nat)
    (Hid : Forall Spec.id_symbol id) :
  Main.isValidYouTubeUrl (scheme ++ www ++ host ++ id) = true
  ∧ MainOnce.isValidYouTubeUrl (scheme ++ www ++ host ++ id) = true
  ∧ MainAssemblyAI.isValidYouTubeUrl (scheme ++ www ++ host ++ id) = true.
Proof.
  assert (Hmain : Main.isValidYouTubeUrl (scheme ++ www ++ host ++ id) = true).
  { apply isValidYouTubeUrl_grammar. exists scheme, www, host, id, [].
    rewrite app_nil_r. repeat split; try done.
    - by repeat (apply elem_of_cons in Hscheme as [-> | Hscheme]; auto);
        apply elem_of_nil in Hscheme.
    - by repeat (apply elem_of_cons in Hwww as [-> | Hwww]; auto);
        apply elem_of_nil in Hwww.
    - by repeat (apply elem_of_cons in Hhost as [-> | Hhost]; auto);
        apply elem_of_nil in Hhost. }
  split; [done |]. split; [done |].
  apply assemblyai_matches_id_url; try done.
  - by apply list_elem_of_further.
  - repeat (apply elem_of_cons in Hhost as [-> | Hhost]).
    + apply list_elem_of_further, list_elem_of_here.
    + apply list_elem_of_here.
    + by apply elem_of_nil in Hhost.
Qed.

Lemma validators_agree_on_plain_urls_witness :
  Main.isValidYouTubeUrl
    (code_units "https://" ++ code_units "www." ++ code_units "youtube.com/watch?v="
       ++ code_units "dQw4w9WgXcQ") = true
  ∧ MainOnce.isValidYouTubeUrl
      (code_units "https://" ++ code_units "www." ++ code_units "youtube.com/watch?v="
         ++ code_units "dQw4w9WgXcQ") = true
  ∧ MainAssemblyAI.isValidYouTubeUrl
      (code_units "https://" ++ code_units "www." ++ code_units "youtube.com/watch?v="
         ++ code_units "dQw4w9WgXcQ") = true.
Proof.
  apply (validators_agree_on_plain_urls (code_units "https://") (code_units "www.")
           (code_units "youtube.com/watch?v=") (code_units "dQw4w9WgXcQ")).
  - apply list_elem_of_further, list_elem_of_here.
  - apply list_elem_of_further, list_elem_of_here.
  - apply list_elem_of_here.
  - reflexivity.
  - apply (Forall_class _ _ _ id_char_symbol). repeat constructor.
Defined.

End validators_more.

(** ** The file system service *)

Section files_more.
Import RegExp JS Errors Effect FileSystemService.

(** X5.  [cleanupFile] touches nothing but the file it is given: the
    refusals of the system and every other file stay as they were, no file
    appears, and a second call on the same path leaves the disk as the first
    one left it. *)
Theorem cleanupFile_frame (disk : Disk) (path : jsstring) :
  faults (cleanupFile disk path).2 = faults disk
  ∧ (∀ other, other ≠ path →
       other ∈ files (cleanupFile disk path).2 ↔ other ∈ files disk)
  ∧ (∀ other, other ∈ files (cleanupFile disk path).2 → other ∈ files disk)
  ∧ cleanupFile (cleanupFile disk path).2 path
    = (Success (), (cleanupFile disk path).2).
Proof.
  unfold cleanupFile, unlink.
  destruct (faults disk !! path) as [code |] eqn:Hfault; simpl.
  { rewrite Hfault. done. }
  destruct (decide (path ∈ files disk)) as [Hin | Hout]; simpl.
  - rewrite Hfault. split; [done |]. split; [| split].
    + intros other Hne. rewrite elem_of_difference, elem_of_singleton. tauto.
    + intros other Hother. by apply elem_of_difference in Hother as [? _].
    + rewrite decide_False; [done |].
      rewrite elem_of_difference, elem_of_singleton. tauto.
  - rewrite Hfault. rewrite decide_False by done. done.
Qed.

Lemma intercalate_snoc_suffix segs name :
  ∃ before, Path.intercalate (segs ++ [name]) = before ++ name
    ∧ (before = [] ∨ last before = Some Path.slash).
Proof.
  induction segs as [| seg segs (before & Heq & Hlast)].
  - exists []. by split; [| left].
  - exists (seg ++ Path.slash :: before).
    rewrite <- app_comm_cons, intercalate_cons by by destruct segs.
    rewrite Heq, <- app_assoc. split; [done |]. right.
    rewrite last_app_cons. destruct Hlast as [-> | Hlast]; [done |].
    destruct before; [done |]. by rewrite last_cons_cons.
Qed.

Lemma join_file_name_suffix dir name :
  Path.file_name name →
  ∃ parent, Path.join [dir; name] = parent ++ name
    ∧ (parent = [] ∨ last parent = Some Path.slash).
Proof.
  intros Hname. destruct dir as [| c dir].
  - exists []. split; [| by left]. unfold Path.join.
    rewrite filter_cons_False by (intros H; by apply H).
    rewrite filter_cons_True by apply Hname. rewrite filter_nil.
    simpl Path.intercalate. by rewrite normalize_file_name.
  - unfold Path.join.
    rewrite filter_cons_True by done.
    rewrite filter_cons_True by apply Hname. rewrite filter_nil.
    change (Path.intercalate [c :: dir; name])
      with ((c :: dir) ++ Path.slash :: name).
    rewrite normalize_snoc by done.
    destruct (intercalate_snoc_suffix
      (reverse (foldl (Path.push_segment
         (negb (bool_decide (head (c :: dir) = Some Path.slash)))) []
         (Path.split (c :: dir)))) name) as (before & -> & Hlast).
    destruct (bool_decide _).
    + exists (Path.slash :: before). split; [done |]. right.
      destruct Hlast as [-> | Hlast]; [done |].
      destruct before; [done |]. by rewrite last_cons_cons.
    + exists before. by split.
Qed.

(** X6.  A path reserved by [makeTempFile] is the generated name
    [fluent-ai-subtitles-<now>.<extension>] put after a parent that is empty
    or ends with a separator: the name is the last segment of the path, and
    the path ends with a dot and the extension. *)
Theorem makeTempFile_path_shape (sys : Sys) (extension path : jsstring)
    (Hext : Path.slash ∉ extension)
    (Hpath : makeTempFile sys extension = Success path) :
  ∃ parent,
    path = parent ++ code_units "fluent-ai-subtitles-" ++ Z_to_string (now sys)
                  ++ code_units "." ++ extension
    ∧ (parent = [] ∨ last parent = Some Path.slash).
Proof.
  unfold makeTempFile in Hpath.
  destruct (realpath_tmpdir sys) as [err | dir]; [done |].
  injection Hpath as <-.
  by apply join_file_name_suffix, temp_name_file_name.
Qed.

Lemma makeTempFile_path_shape_witness :
  ∃ parent,
    Scripted.audio_path
    = parent ++ code_units "fluent-ai-subtitles-"
        ++ Z_to_string (now Scripted.tmp_sys) ++ code_units "." ++ code_units "wav"
    ∧ (parent = [] ∨ last parent = Some Path.slash).
Proof.
  apply (makeTempFile_path_shape Scripted.tmp_sys (code_units "wav")
           Scripted.audio_path).
  - vm_compute. intros H.
    repeat (apply elem_of_cons in H as [H | H]; [discriminate H |]).
    by apply elem_of_nil in H.
  - vm_compute. reflexivity.
Defined.

End files_more.

(** ** The downloader *)

Section downloader_more.
Import RegExp JS Errors Effect FileSystemService YouTubeDownloader Observations.

Lemma listeners_settled_stay kind (p : Promise unit) events :
  p ≠ Pending → foldl (λ p ev, settle p (on_event kind ev)) p events = p.
Proof.
  intros Hp. induction events as [| ev events IH]; [done |].
  simpl. by destruct p.
Qed.

Lemma executor_app kind events more :
  executor {| proc := kind; timeline := events |} ≠ Pending →
  executor {| proc := kind; timeline := events ++ more |}
  = executor {| proc := kind; timeline := events |}.
Proof.
  unfold executor. simpl. intros Hp.
  by rewrite foldl_app, listeners_settled_stay.
Qed.

Lemma interrupted_app kind events more :
  interrupted {| proc := kind; timeline := events |} = true
  ∨ executor {| proc := kind; timeline := events |} ≠ Pending →
  interrupted {| proc := kind; timeline := events ++ more |}
  = interrupted {| proc := kind; timeline := events |}.
Proof.
  unfold interrupted, executor. cbn [proc timeline]. intros [Hfired | Hp].
  - by rewrite Hfired, signal_fired_app_fired.
  - apply signal_fired_app_settled. by destruct (foldl _ _ _).
Qed.

Lemma getAudio_outcome_eq sys exec url :
  outcome (getAudio sys exec url)
  = match makeTempFile sys (code_units "wav") with
    | Success file =>
        if interrupted (exec (exec_args url file)) then Interrupted
        else match executor (exec (exec_args url file)) with
             | Resolved _ => Success file
             | Rejected reason => Failure (YoutubeDownloadError reason)
             | Pending => Suspended
             end
    | Failure e => Failure e
    | Interrupted => Interrupted
    | Suspended => Suspended
    end.
Proof.
  unfold getAudio. cbn [outcome].
  destruct (makeTempFile _ _) as [file | | |]; cbn [flatMap]; try done.
  destruct (interrupted _); [done |]. by destruct (executor _).
Qed.

(** With the temp directory resolved, the outcome is that of the
    extraction. *)
Lemma getAudio_resolved_dir sys exec url dir :
  realpath_tmpdir sys = inr dir →
  let file := Path.join [dir; temp_name (now sys) (code_units "wav")] in
  outcome (getAudio sys exec url)
  = (if interrupted (exec (exec_args url file)) then Interrupted
     else match executor (exec (exec_args url file)) with
          | Resolved _ => Success file
          | Rejected reason => Failure (YoutubeDownloadError reason)
          | Pending => Suspended
          end)
  ∧ to_release (getAudio sys exec url) = [file].
Proof.
  intros Hdir file. rewrite getAudio_outcome_eq.
  unfold getAudio, makeTempFile. by rewrite Hdir.
Qed.

(** X7.  [getAudio] never fails with anything but a
    [YoutubeDownloadError], whatever the file system, the extraction process
    and the caller do. *)
Theorem getAudio_failure_tag
    (sys : Sys) (exec : list jsstring → Run) (url : jsstring) (e : TaggedError)
    (Hfail : outcome (getAudio sys exec url) = Failure e) :
  _tag e = "YoutubeDownloadError"%string.
Proof.
  rewrite getAudio_outcome_eq in Hfail. unfold makeTempFile in Hfail.
  destruct (realpath_tmpdir sys); cbn [tryPromise] in Hfail.
  - by injection Hfail as <-.
  - destruct (interrupted _); [done |].
    destruct (executor _); try done. by injection Hfail as <-.
Qed.

Lemma getAudio_failure_tag_witness :
  _tag (YoutubeDownloadError Cases.spawn_error) = "YoutubeDownloadError"%string.
Proof.
  apply (getAudio_failure_tag Scripted.tmp_sys Cases.errors_then_closes
           Scripted.video_url).
  vm_compute. reflexivity.
Defined.

(** X8.  The promise of [getAudio] settles once: when the events delivered
    so far have ended the call, no event delivered afterwards (a late
    [close], a late abort) changes its outcome. *)
Theorem getAudio_settles_once
    (sys : Sys) (exec : list jsstring → Run) (url : jsstring)
    (more : list Event)
    (Hended : outcome (getAudio sys exec url) ≠ Suspended) :
  outcome (getAudio sys
             (λ args, {| proc := proc (exec args);
                         timeline := timeline (exec args) ++ more |}) url)
  = outcome (getAudio sys exec url).
Proof.
  rewrite !getAudio_outcome_eq in *.
  destruct (makeTempFile _ _) as [file | | |]; try done.
  destruct (exec (exec_args url file)) as [kind events]. cbn [proc timeline].
  destruct (interrupted {| proc := kind; timeline := events |}) eqn:Hsig.
  - rewrite interrupted_app, Hsig; [done | by left].
  - assert (Hp : executor {| proc := kind; timeline := events |} ≠ Pending).
    { intros Hp. by rewrite Hp in Hended. }
    rewrite interrupted_app, Hsig by (by right). by rewrite executor_app.
Qed.

Lemma getAudio_settles_once_witness :
  outcome (getAudio Scripted.tmp_sys
             (λ args, {| proc := proc (Scripted.exits_with (Some 1) args);
                         timeline := timeline (Scripted.exits_with (Some 1) args)
                                       ++ [OnClose (Some 0); Abort] |})
             Scripted.video_url)
  = outcome (getAudio Scripted.tmp_sys (Scripted.exits_with (Some 1))
               Scripted.video_url).
Proof.
  apply (getAudio_settles_once Scripted.tmp_sys (Scripted.exits_with (Some 1))
           Scripted.video_url [OnClose (Some 0); Abort]).
  vm_compute. discriminate.
Defined.

(** X9.  When the extraction process reports an error before anything
    else, [getAudio] fails with a [YoutubeDownloadError] whose cause is that
    error itself, whatever the process reports later. *)
Theorem getAudio_process_error
    (sys : Sys) (exec : list jsstring → Run) (url dir : jsstring)
    (cause : unknown) (rest : list Event)
    (Hdir : realpath_tmpdir sys = inr dir)
    (Hrun : exec (exec_args url (Path.join [dir; temp_name (now sys) (code_units "wav")]))
            = {| proc := ChildProcess; timeline := OnError cause :: rest |}) :
  outcome (getAudio sys exec url) = Failure (YoutubeDownloadError cause).
Proof.
  destruct (getAudio_resolved_dir sys exec url dir Hdir) as [-> _].
  rewrite Hrun. by rewrite executor_first_event, interrupted_first_event.
Qed.

Lemma getAudio_process_error_witness :
  outcome (getAudio Scripted.tmp_sys Cases.errors_then_closes Scripted.video_url)
  = Failure (YoutubeDownloadError Cases.spawn_error).
Proof.
  apply (getAudio_process_error Scripted.tmp_sys Cases.errors_then_closes
           Scripted.video_url (code_units "/tmp") Cases.spawn_error
           [OnClose (Some 1)]);
    reflexivity.
Defined.

Lemma unheard_skipped kind before events :
  kind ≠ Other → Forall (unheard kind) before →
  executor {| proc := kind; timeline := before ++ events |}
  = executor {| proc := kind; timeline := events |}
  ∧ interrupted {| proc := kind; timeline := before ++ events |}
    = interrupted {| proc := kind; timeline := events |}.
Proof.
  intros Hkind Hbefore. unfold executor, interrupted. cbn [proc timeline].
  assert (Hstart : match kind with Other => Resolved () | _ => Pending end = Pending)
    by by destruct kind.
  rewrite Hstart, foldl_app.
  assert (Hfold : foldl (λ p ev, settle p (on_event kind ev)) Pending before = Pending).
  { clear Hstart. induction Hbefore as [| ev before Hev _ IH]; [done |].
    cbn [foldl settle]. by rewrite Hev. }
  split; [by rewrite Hfold |].
  destruct (signal_fired_skip is_abort is_pending
              (λ p ev, settle p (on_event kind ev)) Pending before events)
    as [-> _]; [| done | by rewrite Hfold].
  eapply Forall_impl; [exact Hbefore |]. intros ev Hev. unfold unheard in Hev.
  split; [by destruct ev, kind |].
  intros [| |] Hp; try done. by rewrite Hev.
Qed.

(** X10.  When the fiber is interrupted while the download is under way
    (the signal fires before the process, an event emitter or a promise, has
    reported anything the listeners react to), [getAudio] ends interrupted and
    not in failure: the abort listener does reject the promise, with the
    [YoutubeDownloadError] of the error "aborted", but that rejection never
    reaches the [catch] handler, and an exit with code 0 that follows changes
    nothing.  The reserved path stays in the scope for release. *)
Theorem getAudio_aborted
    (sys : Sys) (exec : list jsstring → Run) (url dir : jsstring)
    (kind : ProcKind) (before rest : list Event)
    (Hdir : realpath_tmpdir sys = inr dir)
    (Hkind : kind ≠ Other)
    (Hbefore : Forall (unheard kind) before)
    (Hrun : exec (exec_args url (Path.join [dir; temp_name (now sys) (code_units "wav")]))
            = {| proc := kind; timeline := before ++ Abort :: rest |}) :
  let file := Path.join [dir; temp_name (now sys) (code_units "wav")] in
  outcome (getAudio sys exec url) = Interrupted
  ∧ (∀ e, outcome (getAudio sys exec url) ≠ Failure e)
  ∧ executor (exec (exec_args url file)) = Rejected aborted_error
  ∧ to_release (getAudio sys exec url) = [file].
Proof.
  intros file. destruct (getAudio_resolved_dir sys exec url dir Hdir) as [Hout Hrel].
  fold file in Hout, Hrel, Hrun. rewrite Hout, Hrun.
  destruct (unheard_skipped kind before (Abort :: rest) Hkind Hbefore) as [-> ->].
  rewrite executor_first_event, interrupted_first_event;
    [| done | by destruct kind | done | by destruct kind].
  cbn [is_abort]. split; [done | split; [done | split; [by destruct kind | done]]].
Qed.

Lemma getAudio_aborted_witness :
  let file := Path.join [code_units "/tmp";
                         temp_name (now Scripted.tmp_sys) (code_units "wav")] in
  outcome (getAudio Scripted.tmp_sys Cases.aborted_then_closes Scripted.video_url)
  = Interrupted
  ∧ (∀ e, outcome (getAudio Scripted.tmp_sys Cases.aborted_then_closes
                     Scripted.video_url) ≠ Failure e)
  ∧ executor (Cases.aborted_then_closes (exec_args Scripted.video_url file))
    = Rejected aborted_error
  ∧ to_release (getAudio Scripted.tmp_sys Cases.aborted_then_closes
                  Scripted.video_url) = [file].
Proof.
  apply (getAudio_aborted Scripted.tmp_sys Cases.aborted_then_closes
           Scripted.video_url (code_units "/tmp") ChildProcess
           [] [OnClose (Some 0)]);
    [reflexivity | discriminate | constructor | reflexivity].
Defined.

(** X11.  When [getAudio] succeeds, the path it yields is the one
    [makeTempFile] reserved, that path is the one finalizer left in the
    scope, and the promise of the extraction was resolved. *)
Theorem getAudio_success_is_reserved_path
    (sys : Sys) (exec : list jsstring → Run) (url path : jsstring)
    (Hok : outcome (getAudio sys exec url) = Success path) :
  makeTempFile sys (code_units "wav") = Success path
  ∧ to_release (getAudio sys exec url) = [path]
  ∧ executor (exec (exec_args url path)) = Resolved ().
Proof.
  rewrite getAudio_outcome_eq in Hok. unfold getAudio. cbn [to_release].
  destruct (makeTempFile _ _) as [file | | |]; try done.
  destruct (interrupted _); [done |].
  destruct (executor (exec (exec_args url file))) as [| [] |] eqn:Hp; try done.
  by injection Hok as <-.
Qed.

Lemma getAudio_success_is_reserved_path_witness :
  makeTempFile Scripted.tmp_sys (code_units "wav") = Success Scripted.audio_path
  ∧ to_release (getAudio Scripted.tmp_sys (Scripted.exits_with (Some 0))
                  Scripted.video_url) = [Scripted.audio_path]
  ∧ executor (Scripted.exits_with (Some 0)
                (exec_args Scripted.video_url Scripted.audio_path)) = Resolved ().
Proof.
  apply (getAudio_success_is_reserved_path Scripted.tmp_sys
           (Scripted.exits_with (Some 0)) Scripted.video_url Scripted.audio_path).
  vm_compute. reflexivity.
Defined.

(** When the temp directory cannot be resolved, [getAudio] fails
    with the [YoutubeDownloadError] of that cause whatever the extraction
    process would have done, and leaves nothing in the scope to release. *)
Lemma getAudio_without_tmpdir
    (sys : Sys) (exec : list jsstring → Run) (url : jsstring) (cause : unknown)
    (Hdir : realpath_tmpdir sys = inl cause) :
  outcome (getAudio sys exec url) = Failure (YoutubeDownloadError cause)
  ∧ to_release (getAudio sys exec url) = [].
Proof.
  unfold getAudio, makeTempFile. rewrite Hdir. done.
Qed.

(** X12.  When the wrapper hands back a promise instead of a process, its
    fulfilment makes [getAudio] succeed with the reserved path and its
    rejection makes it fail with a [YoutubeDownloadError] whose cause is the
    reason of the rejection; [close] and [error] events are not listened
    to. *)
Theorem getAudio_thenable
    (sys : Sys) (exec : list jsstring → Run) (url dir : jsstring)
    (ignored rest : list Event) (settlement : Event)
    (Hdir : realpath_tmpdir sys = inr dir)
    (Hignored : Forall (λ ev, ∃ e code, ev = OnError e ∨ ev = OnClose code) ignored)
    (Hrun : exec (exec_args url (Path.join [dir; temp_name (now sys) (code_units "wav")]))
            = {| proc := Thenable; timeline := ignored ++ settlement :: rest |}) :
  let file := Path.join [dir; temp_name (now sys) (code_units "wav")] in
  (settlement = Fulfilled → outcome (getAudio sys exec url) = Success file)
  ∧ (∀ reason, settlement = RejectedWith reason →
       outcome (getAudio sys exec url) = Failure (YoutubeDownloadError reason)).
Proof.
  intros file. destruct (getAudio_resolved_dir sys exec url dir Hdir) as [-> _].
  fold file. fold file in Hrun. rewrite Hrun.
  destruct (unheard_skipped Thenable ignored (settlement :: rest)) as [-> ->];
    [done | |].
  { eapply Forall_impl; [exact Hignored |].
    by intros ev (e & code & [-> | ->]). }
  split.
  - intros ->. by rewrite executor_first_event, interrupted_first_event.
  - intros reason ->. by rewrite executor_first_event, interrupted_first_event.
Qed.

Lemma getAudio_thenable_witness :
  (RejectedWith Cases.spawn_error = Fulfilled →
   outcome (getAudio Scripted.tmp_sys Cases.rejecting_promise Scripted.video_url)
   = Success (Path.join [code_units "/tmp";
                         temp_name (now Scripted.tmp_sys) (code_units "wav")]))
  ∧ (∀ reason, RejectedWith Cases.spawn_error = RejectedWith reason →
       outcome (getAudio Scripted.tmp_sys Cases.rejecting_promise Scripted.video_url)
       = Failure (YoutubeDownloadError reason)).
Proof.
  apply (getAudio_thenable Scripted.tmp_sys Cases.rejecting_promise
           Scripted.video_url (code_units "/tmp") [] []
           (RejectedWith Cases.spawn_error));
    [reflexivity | constructor | reflexivity].
Defined.

End downloader_more.

(** ** The main program *)

Section program_more.
Import RegExp JS Errors Model Effect FileSystemService YouTubeDownloader Pipeline.

(** X13.  The program fails closed: transcription is attempted only on the
    path a successful [getAudio] returned, and when [getAudio] fails the
    program ends with that very failure after the first log line, without
    transcribing and without printing a result. *)
Theorem program_fails_closed
    (getAudio : jsstring → Exit TaggedError jsstring)
    (transcribe : jsstring → Exit TaggedError json) (url : jsstring) :
  (∀ file, Transcribe file ∈ (program getAudio transcribe url).2 →
           getAudio url = Success file)
  ∧ (∀ e, getAudio url = Failure e →
          program getAudio transcribe url
          = (Failure e, [ConsoleLog (code_units "Processing URL: " ++ url);
                         GetAudio url]))
  ∧ (∀ file e, getAudio url = Success file → transcribe file = Failure e →
               (program getAudio transcribe url).1 = Failure e).
Proof.
  unfold program. split; [| split].
  - intros file Hin.
    destruct (getAudio url) as [audioFile | e | |];
      [destruct (transcribe audioFile) |..]; cbn [fst snd app] in Hin;
      repeat (apply elem_of_cons in Hin as [Hin | Hin]; [try done |]);
      first [by apply elem_of_nil in Hin | by injection Hin as ->].
  - by intros e ->.
  - by intros file e -> ->.
Qed.

(** X14.  The command prints a result exactly when it succeeds: a JSON
    value [v] is logged if and only if the URL was valid, [getAudio]
    succeeded and [transcribe] succeeded with [v]; then it is the last thing
    logged and the command ends in success.  On every failure nothing of
    the result is printed. *)
Theorem command_prints_result_iff_success
    (getAudio : jsstring → Exit TaggedError jsstring)
    (transcribe : jsstring → Exit TaggedError json)
    (isValidYouTubeUrl : jsstring → bool) (url : jsstring) (v : json) :
  (ConsoleLogJson v ∈ (command getAudio transcribe isValidYouTubeUrl url).2
   ↔ isValidYouTubeUrl url = true
     ∧ ∃ file, getAudio url = Success file ∧ transcribe file = Success v)
  ∧ (ConsoleLogJson v ∈ (command getAudio transcribe isValidYouTubeUrl url).2 →
     (command getAudio transcribe isValidYouTubeUrl url).1 = Success ()
     ∧ last (command getAudio transcribe isValidYouTubeUrl url).2
       = Some (ConsoleLogJson v)).
Proof.
  unfold command, validateUrl, succeed, fail, program.
  destruct (isValidYouTubeUrl url); cbn [fst snd app].
  2: { split; [split |]; [by intros ?%elem_of_nil | by intros [? _]
                         | by intros ?%elem_of_nil]. }
  destruct (getAudio url) as [audioFile | e | |]; cbn [fst snd app].
  2-4: split; [split |]; intros H;
       try (destruct H as (_ & file & ? & _); done);
       repeat (apply elem_of_cons in H as [H | H]; try done);
       by apply elem_of_nil in H.
  destruct (transcribe audioFile) as [subtitles | e | |] eqn:Ht; cbn [fst snd app].
  2-4: split; [split |]; intros H;
       try (destruct H as (_ & file & [= <-] & Hv); congruence);
       repeat (apply elem_of_cons in H as [H | H]; try done);
       by apply elem_of_nil in H.
  assert (Hin : ConsoleLogJson v ∈
            [ConsoleLog (code_units "Processing URL: " ++ url); GetAudio url;
             ConsoleLog (code_units "Audio downloaded to: " ++ audioFile);
             Transcribe audioFile; ConsoleLogJson subtitles] → v = subtitles).
  { intros H. repeat (apply elem_of_cons in H as [H | H]; try done).
    - by injection H.
    - by apply elem_of_nil in H. }
  split; [split |].
  - intros ->%Hin. eauto.
  - intros (_ & file & [= <-] & Hv). rewrite Ht in Hv. injection Hv as ->.
    do 4 apply list_elem_of_further. apply list_elem_of_here.
  - by intros ->%Hin.
Qed.

Lemma cleanupFile_removes disk file :
  faults disk !! file = None → file ∉ files (cleanupFile disk file).2.
Proof.
  intros Hfault. unfold cleanupFile, unlink. rewrite Hfault.
  destruct (decide (file ∈ files disk)); simpl; [| done].
  intros [_ Hn]%elem_of_difference. apply Hn. by apply elem_of_singleton.
Qed.

Lemma cleanupFile_keeps_others disk file other :
  other ≠ file → other ∈ files (cleanupFile disk file).2 ↔ other ∈ files disk.
Proof.
  intros Hne. unfold cleanupFile, unlink.
  destruct (faults disk !! file); [done |].
  destruct (decide (file ∈ files disk)); simpl; [| done].
  rewrite elem_of_difference, elem_of_singleton. tauto.
Qed.

Lemma close_scope_one disk file :
  App.close_scope disk [file] = (cleanupFile disk file).2.
Proof. reflexivity. Qed.

(** X15.  Release on every exit path.  When the command has run on a valid
    URL with the temp directory resolved and has ended, in success or in
    failure of the download or of the transcription, closing the scope has
    removed the reserved audio file from the disk (unless the system refuses
    the removal) and has left every other file in place.  On a URL that
    fails validation, and when the temp directory could not be resolved, the
    disk is left as it was. *)
Theorem run_releases_audio_file
    (isValidYouTubeUrl : jsstring → bool) (sys : Sys)
    (exec : list jsstring → Run)
    (transcribe : jsstring → Exit TaggedError json)
    (disk : Disk) (url : jsstring)
    (Hended : App.exit (App.run isValidYouTubeUrl sys exec transcribe disk url)
              ≠ Suspended) :
  let disk' := App.disk_after (App.run isValidYouTubeUrl sys exec transcribe disk url) in
  (isValidYouTubeUrl url = false → disk' = disk)
  ∧ (∀ cause, realpath_tmpdir sys = inl cause → disk' = disk)
  ∧ (∀ dir, isValidYouTubeUrl url = true → realpath_tmpdir sys = inr dir →
       let file := Path.join [dir; temp_name (now sys) (code_units "wav")] in
       (faults disk !! file = None → file ∉ files disk')
       ∧ (∀ other, other ≠ file → other ∈ files disk' ↔ other ∈ files disk)).
Proof.
  intros disk'. subst disk'. unfold App.run in *.
  cbn [App.exit App.disk_after] in *.
  set (scope := if isValidYouTubeUrl url
                then to_release (getAudio sys exec url) else []).
  assert (Hdisk : match (command (λ u, outcome (getAudio sys exec u)) transcribe
                           isValidYouTubeUrl url).1 with
                  | Suspended => disk
                  | _ => App.close_scope disk scope
                  end = App.close_scope disk scope).
  { by destruct ((command _ _ _ _).1). }
  rewrite Hdisk. subst scope. split; [| split].
  - by intros ->.
  - intros cause Hdir. destruct (isValidYouTubeUrl url); [| done].
    unfold getAudio, makeTempFile. by rewrite Hdir.
  - intros dir Hv Hdir. rewrite Hv.
    set (file := Path.join [dir; temp_name (now sys) (code_units "wav")]).
    assert (Hrel : to_release (getAudio sys exec url) = [file]).
    { unfold getAudio, makeTempFile. by rewrite Hdir. }
    rewrite Hrel, close_scope_one. split.
    + apply cleanupFile_removes.
    + intros other Hne. by apply cleanupFile_keeps_others.
Qed.

Lemma run_releases_audio_file_witness :
  let disk' := App.disk_after
    (App.run Main.isValidYouTubeUrl Scripted.tmp_sys (Scripted.exits_with (Some 1))
       (λ _, Suspended) Cases.disk_with_audio Scripted.video_url) in
  (Main.isValidYouTubeUrl Scripted.video_url = false → disk' = Cases.disk_with_audio)
  ∧ (∀ cause, realpath_tmpdir Scripted.tmp_sys = inl cause →
       disk' = Cases.disk_with_audio)
  ∧ (∀ dir, Main.isValidYouTubeUrl Scripted.video_url = true →
       realpath_tmpdir Scripted.tmp_sys = inr dir →
       let file := Path.join [dir; temp_name (now Scripted.tmp_sys) (code_units "wav")] in
       (faults Cases.disk_with_audio !! file = None → file ∉ files disk')
       ∧ (∀ other, other ≠ file →
            other ∈ files disk' ↔ other ∈ files Cases.disk_with_audio)).
Proof.
  apply (run_releases_audio_file Main.isValidYouTubeUrl Scripted.tmp_sys
           (Scripted.exits_with (Some 1)) (λ _, Suspended) Cases.disk_with_audio
           Scripted.video_url).
  vm_compute. discriminate.
Defined.

End program_more.

(** ** The transcribers *)

Section transcribers_more.
Import RegExp JS Errors Model Effect SpeechSDK Observations.

(** *** Continuous recognition *)

Lemma recognized_pushed results r :
  reason r = RecognizedSpeech →
  Main.recognized results (Some {| result := Some r |})
  = results ++ [pushed (length results) r].
Proof. intros Hr. unfold Main.recognized. by rewrite decide_True. Qed.

Lemma spoken_cons ev events :
  spoken (ev :: events)
  = match ev with
    | Main.Recognized (Some {| result := Some r |}) =>
        if decide (reason r = RecognizedSpeech) then r :: spoken events
        else spoken events
    | _ => spoken events
    end.
Proof.
  unfold spoken. simpl. destruct ev as [[[[r |]] |] | | |]; try done.
  by destruct (decide _).
Qed.

(** The array after the events: one token for each recognized-speech event,
    whatever else was delivered and whether or not the promise had settled. *)
Lemma run_results events st :
  Main.results (foldl Main.on_event st events)
  = Main.results st
    ++ imap (λ i, pushed (length (Main.results st) + i)) (spoken events).
Proof.
  revert st. induction events as [| ev events IH]; intros st.
  { simpl. by rewrite app_nil_r. }
  cbn [foldl]. rewrite IH, spoken_cons.
  destruct ev as [[[[r |]] |] | | |]; cbn [Main.on_event Main.results]; try done.
  unfold Main.recognized.
  destruct (decide (reason r = RecognizedSpeech)) as [Hr | Hr]; [| done].
  rewrite imap_cons, <- app_assoc. cbn [app].
  rewrite Nat.add_0_r. do 2 f_equal. apply imap_ext. intros i r' _. simpl.
  rewrite length_app. simpl. f_equal. lia.
Qed.

Lemma run_tokens events :
  Main.results (Main.run events) = imap pushed (spoken events).
Proof. unfold Main.run. by rewrite run_results. Qed.

Lemma segments_keep_pending events st :
  Forall is_segment events →
  Main.promise (foldl Main.on_event st events) = Main.promise st.
Proof.
  intros Hevents. revert st.
  induction Hevents as [| ev events Hev _ IH]; intros st; [done |].
  cbn [foldl]. rewrite IH. by destruct ev.
Qed.

Lemma settled_promise_stays events st :
  Main.promise st ≠ Pending →
  Main.promise (foldl Main.on_event st events) = Main.promise st.
Proof.
  revert st. induction events as [| ev events IH]; intros st Hp; [done |].
  cbn [foldl].
  assert (Hstep : Main.promise (Main.on_event st ev) = Main.promise st).
  { destruct ev; cbn [Main.on_event Main.promise]; try done;
      by destruct (Main.promise st). }
  rewrite IH; [done | by rewrite Hstep].
Qed.

(** A promise that is no longer pending was settled by the first event that
    is not a recognized segment. *)
Lemma first_terminal events st :
  Main.promise st = Pending →
  Main.promise (foldl Main.on_event st events) ≠ Pending →
  ∃ before terminal after,
    events = before ++ terminal :: after
    ∧ Forall is_segment before ∧ ¬ is_segment terminal.
Proof.
  revert st. induction events as [| ev events IH]; intros st Hst Hp; [done |].
  assert (Hev : is_segment ev ∨ ¬ is_segment ev) by (destruct ev; simpl; tauto).
  destruct Hev as [Hev | Hev].
  - destruct (IH (Main.on_event st ev)) as (before & terminal & after & -> & ? & ?);
      [by destruct ev | done |].
    exists (ev :: before), terminal, after. split; [done |]. split; [| done].
    by constructor.
  - by exists [], ev, events.
Qed.

(** The first event that is not a recognized segment decides how the call
    ends; the array is read as all the events have left it. *)
Lemma continuous_first_terminal sdk filePath before terminal after :
  Main.setup (sdk filePath) = None →
  Main.events (sdk filePath) = before ++ terminal :: after →
  Forall is_segment before → ¬ is_segment terminal →
  Main.transcribe sdk filePath
  = tryPromise (Main.is_abort terminal)
      (match terminal with
       | Main.SessionStopped =>
           Resolved (token_array (imap pushed (spoken before ++ spoken after)))
       | Main.CanceledEvent e => Rejected (Tagged (TranscriptionError e))
       | _ => Rejected (Tagged (TranscriptionError (JsError (code_units "aborted"))))
       end)
      (λ error, TranscriptionError error).
Proof.
  intros Hsetup Hevents Hbefore Hterminal.
  unfold Main.transcribe, Main.interrupted, Main.read. rewrite Hsetup, Hevents.
  set (st0 := {| Main.results := []; Main.promise := Pending |}).
  assert (Hpending : Main.promise (foldl Main.on_event st0 before) = Pending)
    by by rewrite segments_keep_pending.
  assert (Hsettled : Main.promise (Main.on_event (foldl Main.on_event st0 before) terminal)
                     ≠ Pending).
  { destruct terminal; cbn [Main.on_event Main.promise]; by rewrite ?Hpending. }
  f_equal.
  - destruct (signal_fired_skip Main.is_abort (λ st, is_pending (Main.promise st))
                Main.on_event st0 before (terminal :: after)) as [-> _]; [| done |].
    { eapply Forall_impl; [exact Hbefore |]. intros ev Hev.
      destruct ev; try done. }
    cbn [signal_fired]. rewrite Hpending. cbn [is_pending andb].
    rewrite signal_fired_settled; [by destruct (Main.is_abort terminal) |].
    by destruct (Main.promise (Main.on_event _ terminal)).
  - rewrite run_tokens. unfold Main.run. fold st0. rewrite foldl_app. cbn [foldl].
    rewrite settled_promise_stays by done.
    assert (Hspoken : spoken (before ++ terminal :: after)
                      = spoken before ++ spoken after).
    { unfold spoken. rewrite omap_app. by destruct terminal. }
    rewrite Hspoken.
    destruct terminal; cbn [Main.on_event Main.promise]; try done;
      by rewrite Hpending.
Qed.

(** X16.  Under continuous recognition a successful result comes from a
    [sessionStopped] event that only recognized events precede, and what the
    caller reads is the array [results] itself: it holds one token for each
    recognized-speech event of the session, those delivered after the
    [sessionStopped] included, in order of arrival, the token at position [i]
    carrying [i] as its id and the text, the times and the score of its
    event.  Events with another reason, without a result or without
    arguments add no token. *)
Theorem continuous_result_shape
    (sdk : jsstring → Main.Session) (filePath : jsstring) (v : json)
    (Hok : Main.transcribe sdk filePath = Success v) :
  ∃ before after,
    Main.events (sdk filePath) = before ++ Main.SessionStopped :: after
    ∧ Forall is_segment before
    ∧ v = token_array (imap pushed (spoken before ++ spoken after))
    ∧ length (imap pushed (spoken before ++ spoken after))
      = (length (spoken before) + length (spoken after))%nat
    ∧ ∀ i r, (spoken before ++ spoken after) !! i = Some r →
        imap pushed (spoken before ++ spoken after) !! i = Some (pushed i r).
Proof.
  pose proof Hok as (Hsetup & _ & Hp & _)%transcribe_continuous_success.
  destruct (first_terminal (Main.events (sdk filePath))
              {| Main.results := []; Main.promise := Pending |})
    as (before & terminal & after & Hevents & Hbefore & Hterminal);
    [done | by unfold Main.run in Hp; rewrite Hp |].
  rewrite (continuous_first_terminal _ _ _ _ _ Hsetup Hevents Hbefore Hterminal)
    in Hok.
  destruct terminal as [e | | e |]; try done.
  exists before, after. injection Hok as <-.
  split; [done |]. split; [done |]. split; [done |]. split.
  - by rewrite length_imap, length_app.
  - intros i r Hr. by rewrite list_lookup_imap, Hr.
Qed.

Lemma continuous_result_shape_witness :
  ∃ before after,
    Main.events
      (Cases.session [Cases.segment Scripted.hello_result; Main.SessionStopped;
                      Cases.segment Scripted.zero_number_result]
         Scripted.audio_path)
    = before ++ Main.SessionStopped :: after
    ∧ Forall is_segment before
    ∧ token_array [pushed 0 Scripted.hello_result;
                   pushed 1 Scripted.zero_number_result]
      = token_array (imap pushed (spoken before ++ spoken after))
    ∧ length (imap pushed (spoken before ++ spoken after))
      = (length (spoken before) + length (spoken after))%nat
    ∧ ∀ i r, (spoken before ++ spoken after) !! i = Some r →
        imap pushed (spoken before ++ spoken after) !! i = Some (pushed i r).
Proof.
  apply (continuous_result_shape
           (Cases.session [Cases.segment Scripted.hello_result; Main.SessionStopped;
                           Cases.segment Scripted.zero_number_result])
           Scripted.audio_path).
  reflexivity.
Defined.

(** X17.  The first [sessionStopped] decides that a continuous
    transcription succeeds: when only recognized events came before it,
    nothing delivered afterwards (a cancellation, an abort, another stop)
    turns the call into a failure or an interruption.  It does not fix the
    tokens: the promise is resolved with the array itself, so the value read
    is the tokens collected up to the stop followed by one token for each
    recognized-speech segment delivered after it, and it is the tokens
    collected up to the stop only when no such segment follows. *)
Theorem continuous_resolves_at_first_stop
    (sdk : jsstring → Main.Session) (filePath : jsstring)
    (before after : list Main.Event)
    (Hsetup : Main.setup (sdk filePath) = None)
    (Hevents : Main.events (sdk filePath) = before ++ Main.SessionStopped :: after)
    (Hbefore : Forall is_segment before) :
  Main.transcribe sdk filePath
  = Success (token_array
      (Main.results (Main.run before)
       ++ imap (λ i, pushed (length (Main.results (Main.run before)) + i))
            (spoken after)))
  ∧ (Main.transcribe sdk filePath
     = Success (token_array (Main.results (Main.run before)))
     ↔ spoken after = []).
Proof.
  rewrite (continuous_first_terminal _ _ _ _ _ Hsetup Hevents Hbefore
             ltac:(by intros [])).
  cbn [Main.is_abort tryPromise]. rewrite imap_app, <- run_tokens.
  replace (length (spoken before)) with (length (Main.results (Main.run before)))
    by by rewrite run_tokens, length_imap.
  split; [done |]. split.
  - intros [= H%(f_equal length)]. unfold token_array in H.
    rewrite !length_fmap, length_app, length_imap in H.
    apply length_zero_iff_nil. lia.
  - intros ->. simpl. by rewrite app_nil_r.
Qed.

Lemma continuous_resolves_at_first_stop_witness :
  Main.transcribe
    (Cases.session [Cases.segment Scripted.hello_result; Main.SessionStopped;
                    Cases.segment Scripted.zero_number_result; Main.Abort])
    Scripted.audio_path
  = Success (token_array
      (Main.results (Main.run [Cases.segment Scripted.hello_result])
       ++ imap (λ i, pushed
                  (length (Main.results (Main.run [Cases.segment Scripted.hello_result]))
                   + i))
            (spoken [Cases.segment Scripted.zero_number_result; Main.Abort])))
  ∧ (Main.transcribe
       (Cases.session [Cases.segment Scripted.hello_result; Main.SessionStopped;
                       Cases.segment Scripted.zero_number_result; Main.Abort])
       Scripted.audio_path
     = Success (token_array (Main.results (Main.run [Cases.segment Scripted.hello_result])))
     ↔ spoken [Cases.segment Scripted.zero_number_result; Main.Abort] = []).
Proof.
  apply (continuous_resolves_at_first_stop _ Scripted.audio_path
           [Cases.segment Scripted.hello_result]
           [Cases.segment Scripted.zero_number_result; Main.Abort]);
    [reflexivity | reflexivity | repeat constructor].
Defined.

(** X18.  Partial results are discarded: when the recognizer reports a
    cancellation before any [sessionStopped], then however many segments
    were already recognized [transcribe] fails, with a [TranscriptionError]
    wrapping the [TranscriptionError] of the payload of the cancellation; and
    when the fiber is interrupted before any [sessionStopped] the call ends
    interrupted, the rejection raised by the abort listener never reaching
    the [catch] handler.  A [sessionStopped] that follows changes neither. *)
Theorem continuous_abort_discards_tokens
    (sdk : jsstring → Main.Session) (filePath : jsstring)
    (before after : list Main.Event) (terminal : Main.Event)
    (Hsetup : Main.setup (sdk filePath) = None)
    (Hevents : Main.events (sdk filePath) = before ++ terminal :: after)
    (Hbefore : Forall is_segment before) :
  (terminal = Main.Abort → Main.transcribe sdk filePath = Interrupted)
  ∧ (∀ payload, terminal = Main.CanceledEvent payload →
       Main.transcribe sdk filePath
       = Failure (TranscriptionError (Tagged (TranscriptionError payload)))).
Proof.
  split.
  - intros ->.
    by rewrite (continuous_first_terminal _ _ _ _ _ Hsetup Hevents Hbefore
                  ltac:(by intros [])).
  - intros payload ->.
    by rewrite (continuous_first_terminal _ _ _ _ _ Hsetup Hevents Hbefore
                  ltac:(by intros [])).
Qed.

Lemma continuous_abort_discards_tokens_witness :
  (Main.Abort = Main.Abort →
   Main.transcribe
     (Cases.session [Cases.segment Scripted.hello_result; Main.Abort;
                     Main.SessionStopped]) Scripted.audio_path
   = Interrupted)
  ∧ (∀ payload, Main.Abort = Main.CanceledEvent payload →
       Main.transcribe
         (Cases.session [Cases.segment Scripted.hello_result; Main.Abort;
                         Main.SessionStopped]) Scripted.audio_path
       = Failure (TranscriptionError (Tagged (TranscriptionError payload)))).
Proof.
  apply (continuous_abort_discards_tokens _ Scripted.audio_path
           [Cases.segment Scripted.hello_result] [Main.SessionStopped] Main.Abort);
    [reflexivity | reflexivity | repeat constructor].
Defined.

(** *** Single-shot recognition *)

(** X19.  In the single-shot variant a result whose reason is not
    "recognized speech" makes [transcribe] fail with a [TranscriptionError]
    whose cause is the error "Unexpected result reason: <code>", the code
    being that of the reason; two reasons with different codes give
    different messages. *)
Theorem once_unexpected_reason
    (sdk : jsstring → MainOnce.Session) (filePath : jsstring)
    (result : SpeechRecognitionResult) (rest : list MainOnce.Event)
    (Hsetup : MainOnce.setup (sdk filePath) = None)
    (Hevents : MainOnce.events (sdk filePath) = MainOnce.OnResult result :: rest)
    (Hreason : reason result ≠ RecognizedSpeech) :
  MainOnce.transcribe sdk filePath
  = Failure (TranscriptionError (JsError
      (code_units "Unexpected result reason: "
         ++ Z_to_string (reason_code (reason result)))))
  ∧ ∀ other : ResultReason,
      code_units "Unexpected result reason: " ++ Z_to_string (reason_code other)
      = code_units "Unexpected result reason: "
          ++ Z_to_string (reason_code (reason result)) →
      reason_code other = reason_code (reason result).
Proof.
  split.
  - rewrite (once_first_event _ _ _ rest Hsetup Hevents).
    cbn [MainOnce.on_event]. by rewrite decide_False.
  - intros other H%app_inv_head. by apply Z_to_string_inj.
Qed.

Lemma once_unexpected_reason_witness :
  MainOnce.transcribe (Cases.once [MainOnce.OnResult Cases.no_match_result])
    Scripted.audio_path
  = Failure (TranscriptionError (JsError
      (code_units "Unexpected result reason: "
         ++ Z_to_string (reason_code (reason Cases.no_match_result)))))
  ∧ ∀ other : ResultReason,
      code_units "Unexpected result reason: " ++ Z_to_string (reason_code other)
      = code_units "Unexpected result reason: "
          ++ Z_to_string (reason_code (reason Cases.no_match_result)) →
      reason_code other = reason_code (reason Cases.no_match_result).
Proof.
  apply (once_unexpected_reason _ Scripted.audio_path Cases.no_match_result []);
    [reflexivity | reflexivity | discriminate].
Defined.

(** X20.  In the single-shot variant the client-side timer wins over a late
    answer: when the 30-second timeout fires before the backend has
    answered, [transcribe] fails with the timeout error, even if a
    recognized result arrives afterwards.  When the fiber is interrupted
    before the backend has answered, the call ends interrupted, not failed:
    the error "Speech recognition aborted" of the abort listener never
    reaches the [catch] handler, and a late result changes nothing. *)
Theorem once_timeout_before_result
    (sdk : jsstring → MainOnce.Session) (filePath : jsstring)
    (first : MainOnce.Event) (rest : list MainOnce.Event)
    (Hsetup : MainOnce.setup (sdk filePath) = None)
    (Hevents : MainOnce.events (sdk filePath) = first :: rest) :
  (first = MainOnce.Timeout →
   MainOnce.transcribe sdk filePath
   = Failure (TranscriptionError (JsError
       (code_units "Speech recognition timeout after 30 seconds"))))
  ∧ (first = MainOnce.Abort → MainOnce.transcribe sdk filePath = Interrupted).
Proof.
  rewrite (once_first_event _ _ _ rest Hsetup Hevents).
  split; by intros ->.
Qed.

Lemma once_timeout_before_result_witness :
  (MainOnce.Abort = MainOnce.Timeout →
   MainOnce.transcribe
     (Cases.once [MainOnce.Abort; MainOnce.OnResult Scripted.hello_result])
     Scripted.audio_path
   = Failure (TranscriptionError (JsError
       (code_units "Speech recognition timeout after 30 seconds"))))
  ∧ (MainOnce.Abort = MainOnce.Abort →
     MainOnce.transcribe
       (Cases.once [MainOnce.Abort; MainOnce.OnResult Scripted.hello_result])
       Scripted.audio_path
     = Interrupted).
Proof.
  apply (once_timeout_before_result _ Scripted.audio_path MainOnce.Abort
           [MainOnce.OnResult Scripted.hello_result]);
    reflexivity.
Defined.

(** X21.  None of the three transcribers fails with anything but a
    [TranscriptionError]. *)
Theorem transcribe_failure_tag (filePath : jsstring) (e : TaggedError) :
  (∀ sdk, Main.transcribe sdk filePath = Failure e →
          _tag e = "TranscriptionError"%string)
  ∧ (∀ sdk, MainOnce.transcribe sdk filePath = Failure e →
            _tag e = "TranscriptionError"%string)
  ∧ (∀ backend, MainAssemblyAI.transcribe backend filePath = Failure e →
                _tag e = "TranscriptionError"%string).
Proof.
  assert (Htag : ∀ (b : bool) (p : Promise json) (f : unknown → unknown),
            tryPromise b p (λ error, TranscriptionError (f error)) = Failure e →
            _tag e = "TranscriptionError"%string).
  { intros [] [| |] f H; try done. by injection H as <-. }
  split; [| split].
  - intros sdk. apply (Htag _ _ (λ error, error)).
  - intros sdk. apply (Htag _ _ as_Error).
  - intros backend. apply (Htag _ _ as_Error).
Qed.

End transcribers_more.

(** *** Submit and poll *)

Section poll_turn.
Import RegExp JS Errors Model Effect.

(** One turn of the loop, once more, for use where the module of the
    variant is open. *)
Lemma poll_loop_turn (status_of : nat → unknown + MainAssemblyAI.StatusData)
    (signal_aborted : nat → bool) (i : nat) (elapsed : Z) :
  MainAssemblyAI.poll_loop status_of signal_aborted i elapsed =
  if signal_aborted i then
    {| MainAssemblyAI.settled :=
         Rejected (JsError (code_units "Transcription aborted"));
       MainAssemblyAI.requests := i; MainAssemblyAI.slept := elapsed |}
  else if Z_gt_dec elapsed MainAssemblyAI.MAX_POLL_TIME then
    {| MainAssemblyAI.settled :=
         Rejected (JsError (code_units "Transcription timed out"));
       MainAssemblyAI.requests := i; MainAssemblyAI.slept := elapsed |}
  else match status_of i with
       | inl err =>
           {| MainAssemblyAI.settled := Rejected err;
              MainAssemblyAI.requests := S i; MainAssemblyAI.slept := elapsed |}
       | inr statusData =>
           match MainAssemblyAI.branch statusData with
           | MainAssemblyAI.Completed =>
               {| MainAssemblyAI.settled :=
                    Resolved (token_array (MainAssemblyAI.to_subtitles statusData));
                  MainAssemblyAI.requests := S i; MainAssemblyAI.slept := elapsed |}
           | MainAssemblyAI.Errored =>
               {| MainAssemblyAI.settled := Rejected (JsError
                    (code_units "AssemblyAI transcription failed: "
                       ++ opt_to_string (MainAssemblyAI.error statusData)));
                  MainAssemblyAI.requests := S i; MainAssemblyAI.slept := elapsed |}
           | MainAssemblyAI.Waiting =>
               MainAssemblyAI.poll_loop status_of signal_aborted (S i)
                 (elapsed + MainAssemblyAI.POLL_INTERVAL)
           end
       end.
Proof. apply poll_loop_unfold. Qed.

End poll_turn.

Section polling_more.
Import RegExp JS Errors Model Effect MainAssemblyAI.
Implicit Types (status_of : nat → unknown + StatusData)
  (signal_aborted : nat → bool) (i k : nat) (elapsed : Z).

Lemma branch_error statusData :
  status statusData = code_units "error" → branch statusData = Errored.
Proof. intros H. unfold branch. by rewrite H. Qed.

(** X22.  When the service answers ["error"] (after at most 400 answers that
    were not terminal and with no abort), [transcribe] fails with a
    [TranscriptionError] whose cause is the error
    "AssemblyAI transcription failed: <error>", the backend's error text
    being quoted as it is ("undefined" when the answer has none), and no
    further status request is made. *)
Theorem transcribe_error_status
    (backend : Backend) (filePath upload_url transcriptId : jsstring)
    (k : nat) (statusData : StatusData)
    (Hread : readFile backend filePath = inr ())
    (Hupload : upload backend = inr upload_url)
    (Hsubmit : submit backend upload_url = inr transcriptId)
    (Hlive : ∀ i, (i ≤ k)%nat → aborted backend i = false)
    (Hwait : ∀ i, (i < k)%nat → non_terminal (poll backend transcriptId i))
    (Hk : (k ≤ 400)%nat)
    (Hpoll : poll backend transcriptId k = inr statusData)
    (Hstatus : status statusData = code_units "error") :
  transcribe backend filePath
  = Failure (TranscriptionError (JsError
      (code_units "AssemblyAI transcription failed: "
         ++ opt_to_string (error statusData))))
  ∧ requests (poll_loop (poll backend transcriptId) (aborted backend) 0 0) = S k.
Proof.
  assert (Hlive' : ∀ i, (i < k)%nat → aborted backend i = false)
    by (intros i Hi; apply Hlive; lia).
  destruct (transcribe_after_waits backend filePath upload_url transcriptId k
              Hread Hupload Hsubmit Hlive' Hwait ltac:(lia)) as [-> ->].
  rewrite poll_loop_turn, poll_interrupted_turn, (Hlive k), Hpoll,
    (branch_error _ Hstatus) by done.
  destruct (Z_gt_dec _ _) as [Hgt |]; [| done].
  unfold MAX_POLL_TIME, POLL_INTERVAL in Hgt. lia.
Qed.

Lemma transcribe_error_status_witness :
  transcribe
    (Cases.queued_then 2 (Cases.failed_with (Some (code_units "bad audio"))) None)
    Scripted.audio_path
  = Failure (TranscriptionError (JsError
      (code_units "AssemblyAI transcription failed: "
         ++ opt_to_string (error (Cases.failed_with (Some (code_units "bad audio")))))))
  ∧ requests (poll_loop
                (poll (Cases.queued_then 2
                         (Cases.failed_with (Some (code_units "bad audio"))) None)
                   (code_units "job-1"))
                (aborted (Cases.queued_then 2
                            (Cases.failed_with (Some (code_units "bad audio"))) None))
                0 0) = 3%nat.
Proof.
  apply (transcribe_error_status
           (Cases.queued_then 2 (Cases.failed_with (Some (code_units "bad audio"))) None)
           Scripted.audio_path (code_units "https://cdn.example/upload/1")
           (code_units "job-1") 2
           (Cases.failed_with (Some (code_units "bad audio"))));
    try reflexivity.
  - intros i Hi. simpl. rewrite decide_True by lia. reflexivity.
  - lia.
Defined.

(** X23.  Interruption is observed at the top of an iteration: when the
    signal is first found aborted at iteration [k], after [k] answers that
    were not terminal, the loop throws the error "Transcription aborted" and
    exactly [k] status requests have been made, none after the abort was
    seen; the call ends interrupted, not failed: that error never reaches the
    [catch] handler. *)
Theorem transcribe_aborted_stops_polling
    (backend : Backend) (filePath upload_url transcriptId : jsstring) (k : nat)
    (Hread : readFile backend filePath = inr ())
    (Hupload : upload backend = inr upload_url)
    (Hsubmit : submit backend upload_url = inr transcriptId)
    (Hlive : ∀ i, (i < k)%nat → aborted backend i = false)
    (Hwait : ∀ i, (i < k)%nat → non_terminal (poll backend transcriptId i))
    (Hk : (k ≤ 401)%nat)
    (Habort : aborted backend k = true) :
  transcribe backend filePath = Interrupted
  ∧ settled (poll_loop (poll backend transcriptId) (aborted backend) 0 0)
    = Rejected (JsError (code_units "Transcription aborted"))
  ∧ requests (poll_loop (poll backend transcriptId) (aborted backend) 0 0) = k.
Proof.
  destruct (transcribe_after_waits backend filePath upload_url transcriptId k
              Hread Hupload Hsubmit Hlive Hwait Hk) as [-> ->].
  rewrite (poll_loop_skip _ _ k 0 0); [| done | done |].
  - change (0 + k)%nat with k. change (0 + ?x) with x.
    by rewrite poll_loop_turn, poll_interrupted_turn, Habort.
  - intros j Hj. unfold MAX_POLL_TIME, POLL_INTERVAL. lia.
Qed.

Lemma transcribe_aborted_stops_polling_witness :
  transcribe (Cases.queued_then 5 Scripted.queued (Some 3%nat)) Scripted.audio_path
  = Interrupted
  ∧ settled (poll_loop
               (poll (Cases.queued_then 5 Scripted.queued (Some 3%nat))
                  (code_units "job-1"))
               (aborted (Cases.queued_then 5 Scripted.queued (Some 3%nat))) 0 0)
    = Rejected (JsError (code_units "Transcription aborted"))
  ∧ requests (poll_loop
                (poll (Cases.queued_then 5 Scripted.queued (Some 3%nat))
                   (code_units "job-1"))
                (aborted (Cases.queued_then 5 Scripted.queued (Some 3%nat))) 0 0)
    = 3%nat.
Proof.
  apply (transcribe_aborted_stops_polling
           (Cases.queued_then 5 Scripted.queued (Some 3%nat))
           Scripted.audio_path (code_units "https://cdn.example/upload/1")
           (code_units "job-1") 3);
    try reflexivity.
  - intros i Hi. simpl. rewrite bool_decide_eq_false_2 by lia. reflexivity.
  - intros i Hi. simpl. rewrite decide_True by lia. reflexivity.
  - lia.
Defined.

(** X24.  No retry and no polling after a failed step: when reading the
    file, the upload or the submission fails, [transcribe] fails with a
    [TranscriptionError] of that cause, whatever the status endpoint would
    have answered. *)
Theorem transcribe_fails_before_polling
    (backend : Backend) (filePath : jsstring) (cause : unknown)
    (Hstep : readFile backend filePath = inl cause
             ∨ (readFile backend filePath = inr () ∧ upload backend = inl cause)
             ∨ (∃ upload_url, readFile backend filePath = inr ()
                  ∧ upload backend = inr upload_url
                  ∧ submit backend upload_url = inl cause)) :
  ∀ answers signal,
    transcribe {| readFile := readFile backend; upload := upload backend;
                  submit := submit backend; poll := answers; aborted := signal |}
      filePath
    = Failure (TranscriptionError (as_Error cause)).
Proof.
  intros answers signal. unfold transcribe, interrupted.
  cbn [readFile upload submit].
  destruct Hstep as [-> | [[-> ->] | (upload_url & -> & -> & ->)]]; done.
Qed.

Lemma transcribe_fails_before_polling_witness :
  transcribe {| readFile := readFile Cases.upload_refused;
                upload := upload Cases.upload_refused;
                submit := submit Cases.upload_refused;
                poll := λ _ _, inr (Scripted.completed_with [Scripted.hi_word]);
                aborted := λ _, false |}
    Scripted.audio_path
  = Failure (TranscriptionError (as_Error (JsError (code_units "fetch failed")))).
Proof.
  apply (transcribe_fails_before_polling Cases.upload_refused Scripted.audio_path
           (JsError (code_units "fetch failed"))).
  right. left. split; reflexivity.
Defined.

Lemma poll_loop_local status_of status_of' signal_aborted signal_aborted' i elapsed :
  elapsed ≤ MAX_POLL_TIME + POLL_INTERVAL →
  (∀ j, (i ≤ j)%nat →
        elapsed + POLL_INTERVAL * (Z.of_nat j - Z.of_nat i) ≤ MAX_POLL_TIME →
        status_of j = status_of' j) →
  (∀ j, (i ≤ j)%nat →
        elapsed + POLL_INTERVAL * (Z.of_nat j - Z.of_nat i)
        ≤ MAX_POLL_TIME + POLL_INTERVAL →
        signal_aborted j = signal_aborted' j) →
  poll_loop status_of signal_aborted i elapsed
  = poll_loop status_of' signal_aborted' i elapsed.
Proof.
  intros Hle Hst Hsig. revert Hle Hst Hsig.
  funelim (poll_loop status_of signal_aborted i elapsed); clear Heqcall;
    intros Hle Hst Hsig;
    rewrite (poll_loop_turn status_of' signal_aborted');
    (rewrite <- (Hsig i) by (unfold POLL_INTERVAL in *; lia)).
  - by rewrite Heq.
  - rewrite Heq0. by destruct (Z_gt_dec elapsed MAX_POLL_TIME).
  - rewrite Heq1. destruct (Z_gt_dec elapsed MAX_POLL_TIME); [done |].
    rewrite <- (Hst i) by (unfold POLL_INTERVAL in *; lia). by rewrite Heq.
  - rewrite Heq2. destruct (Z_gt_dec elapsed MAX_POLL_TIME); [done |].
    rewrite <- (Hst i) by (unfold POLL_INTERVAL in *; lia). by rewrite Heq0, Heq.
  - rewrite Heq2. destruct (Z_gt_dec elapsed MAX_POLL_TIME); [done |].
    rewrite <- (Hst i) by (unfold POLL_INTERVAL in *; lia). by rewrite Heq0, Heq.
  - rewrite Heq2. destruct (Z_gt_dec elapsed MAX_POLL_TIME) as [| Hok]; [done |].
    rewrite <- (Hst i) by (unfold POLL_INTERVAL in *; lia). rewrite Heq0, Heq.
    apply H.
    + unfold POLL_INTERVAL in *. lia.
    + intros j Hj Hb. apply Hst; [lia |]. unfold POLL_INTERVAL in *. lia.
    + intros j Hj Hb. apply Hsig; [lia |]. unfold POLL_INTERVAL in *. lia.
Qed.

(** X25.  The outcome of the poll loop depends on the first 401 answers of
    the service and on the state of the signal at the first 402 iterations
    only: whatever the job does later (complete, fail) is never seen, the
    call has timed out before. *)
Theorem poll_loop_ignores_late_answers
    (status_of status_of' : nat → unknown + StatusData)
    (signal_aborted signal_aborted' : nat → bool)
    (Hanswers : ∀ j, (j ≤ 400)%nat → status_of j = status_of' j)
    (Hsignal : ∀ j, (j ≤ 401)%nat → signal_aborted j = signal_aborted' j) :
  poll_loop status_of signal_aborted 0 0 = poll_loop status_of' signal_aborted' 0 0.
Proof.
  apply poll_loop_local.
  - by vm_compute.
  - intros j _ Hb. apply Hanswers. unfold MAX_POLL_TIME, POLL_INTERVAL in Hb. lia.
  - intros j _ Hb. apply Hsignal. unfold MAX_POLL_TIME, POLL_INTERVAL in Hb. lia.
Qed.

Lemma poll_loop_ignores_late_answers_witness :
  poll_loop (poll (Cases.queued_then 401 (Scripted.completed_with [Scripted.hi_word]) None)
               (code_units "job-1")) (λ _, false) 0 0
  = poll_loop (poll (Scripted.always Scripted.queued) (code_units "job-1"))
      (λ _, false) 0 0.
Proof.
  apply (poll_loop_ignores_late_answers
           (poll (Cases.queued_then 401 (Scripted.completed_with [Scripted.hi_word]) None)
              (code_units "job-1"))
           (poll (Scripted.always Scripted.queued) (code_units "job-1"))
           (λ _, false) (λ _, false)).
  - intros j Hj. simpl. rewrite decide_True by lia. reflexivity.
  - reflexivity.
Defined.



(** X27.  A job reported ["completed"] without a word list gives an empty
    result, not a failure. *)
Theorem transcribe_completed_without_words
    (backend : Backend) (filePath upload_url transcriptId : jsstring)
    (k : nat) (statusData : StatusData)
    (Hread : readFile backend filePath = inr ())
    (Hupload : upload backend = inr upload_url)
    (Hsubmit : submit backend upload_url = inr transcriptId)
    (Hlive : ∀ i, (i ≤ k)%nat → aborted backend i = false)
    (Hwait : ∀ i, (i < k)%nat → non_terminal (poll backend transcriptId i))
    (Hk : (k ≤ 400)%nat)
    (Hpoll : poll backend transcriptId k = inr statusData)
    (Hstatus : status statusData = code_units "completed")
    (Hwords : words statusData = None ∨ words statusData = Some []) :
  transcribe backend filePath = Success (token_array [])
  ∧ as_SubtitleResult (token_array []) = Some [].
Proof.
  split; [| done].
  assert (Hlive' : ∀ i, (i < k)%nat → aborted backend i = false)
    by (intros i Hi; apply Hlive; lia).
  destruct (transcribe_after_waits backend filePath upload_url transcriptId k
              Hread Hupload Hsubmit Hlive' Hwait ltac:(lia)) as [-> _].
  rewrite poll_loop_turn, poll_interrupted_turn, (Hlive k), Hpoll,
    (branch_completed _ Hstatus) by done.
  destruct (Z_gt_dec _ _) as [Hgt |].
  { unfold MAX_POLL_TIME, POLL_INTERVAL in Hgt. lia. }
  unfold to_subtitles. by destruct Hwords as [-> | ->].
Qed.

Lemma transcribe_completed_without_words_witness :
  transcribe
    (Scripted.always
       {| status := code_units "completed"; text := None; words := None;
          error := None |})
    Scripted.audio_path = Success (token_array [])
  ∧ as_SubtitleResult (token_array []) = Some [].
Proof.
  apply (transcribe_completed_without_words
           (Scripted.always
              {| status := code_units "completed"; text := None; words := None;
                 error := None |})
           Scripted.audio_path (code_units "https://cdn.example/upload/1")
           (code_units "job-1") 0
           {| status := code_units "completed"; text := None; words := None;
              error := None |});
    try reflexivity.
  - intros i Hi. lia.
  - lia.
  - by left.
Defined.

End polling_more.
